(** * shared/run_diff.go: the run-diff engine of wpt.fyi

    A shallow embedding of [GetResultsDiff], [anyPathMatches],
    [getDiffRenames], [FetchRunResultsJSON] and [GetRunsDiff], followed by
    the properties of the specification that concern them.

    Conventions of the embedding:
    - Go's [int] is a 64-bit two's-complement integer: a [Z] with the
      wrap-around of every arithmetic operation written out ([wrap]).
    - [map[string][]int] is a [gmap string (list Z)]; a nil map and an empty
      map read the same, and are only told apart where the source compares
      with [nil] (then the map is wrapped in an [option]).
    - [range] over a map visits every entry once, in an order the language
      leaves unspecified.  The order is an explicit argument of the loops
      (a list of entries), constrained by [range_of].
    - a run-time panic (index out of range, slice bounds out of range, nil
      dereference) is the result [None] of the [option] monad, or the
      outcome [Panicked] of [GetRunsDiff].
    - a call that returns [(value, err)] is a sum: [inl value] when [err]
      is nil, [inr err] otherwise. *)

From Stdlib Require Import ZArith Lia.
From stdpp Require Import base option list gmap strings fin_maps.

Local Open Scope Z_scope.

(** ** Go's [int] *)

Module GoInt.

Definition int_min : Z := - 2 ^ 63.
Definition int_max : Z := 2 ^ 63 - 1.

(** Reduction of a mathematical integer to its 64-bit representative. *)
Definition wrap (z : Z) : Z := (z + 2 ^ 63) mod 2 ^ 64 - 2 ^ 63.

Definition sub (x y : Z) : Z := wrap (x - y).
Definition neg (x : Z) : Z := wrap (- x).

Definition in_range (z : Z) : Prop := int_min ≤ z ≤ int_max.

End GoInt.

(** ** Go's [strings.Index] *)

Module GoStrings.

(** [has_prefix s p]: the bytes of [p] are the first bytes of [s]. *)
Fixpoint has_prefix (s p : string) {struct p} : bool :=
  match p with
  | EmptyString => true
  | String c p' =>
      match s with
      | EmptyString => false
      | String d s' => if decide (c = d) then has_prefix s' p' else false
      end
  end.

(** Index of the first occurrence of [substr] at or after position [i],
    where [s] is the suffix of the searched string that starts at [i];
    [-1] when there is none. *)
Fixpoint index_from (i : Z) (s substr : string) : Z :=
  if has_prefix s substr then i
  else match s with
       | EmptyString => -1
       | String _ s' => index_from (i + 1) s' substr
       end.

Definition Index (s substr : string) : Z := index_from 0 s substr.

End GoStrings.

(** ** Data of the diff engine *)

(** [DiffFilterParam]: the four facets of a diff request. *)
Record DiffFilterParam : Type := {
  Added : bool;
  Deleted : bool;
  Changed : bool;
  Unchanged : bool
}.

(** [paths mapset.Set]: an interface value, [None] when nil, otherwise a
    set whose elements are the prefixes (the source asserts each element
    to be a string). *)
Definition PathSet : Type := option (gset string).

(** [renames map[string]string], [None] when nil. *)
Definition RenameMap : Type := option (gmap string string).

(** [range] over a map: [l] enumerates the entries of [m], each once. *)
Definition range_of {V : Type} (m : gmap string V) (l : list (string * V)) : Prop :=
  l ≡ₚ map_to_list m.

(** A loop over the entries [l] whose body may panic or update the
    accumulator ([continue] returns the accumulator as it is). *)
Fixpoint range_loop {E S : Type} (body : S → E → option S) (l : list E) (acc : S)
  : option S :=
  match l with
  | [] => Some acc
  | e :: l' =>
      match body acc e with
      | None => None
      | Some acc' => range_loop body l' acc'
      end
  end.

(** ** [anyPathMatches] *)

(** The loop [for path := range paths.Iter()] returns [true] at the first
    element that is a prefix of [testPath]; [order] is the order in which
    the iterator yields the elements. *)
Fixpoint anyPathMatches_loop (order : list string) (testPath : string) : bool :=
  match order with
  | [] => false
  | path :: rest =>
      if decide (GoStrings.Index testPath path = 0) then true
      else anyPathMatches_loop rest testPath
  end.

Definition anyPathMatches (paths : PathSet) (testPath : string) : bool :=
  match paths with
  | None => true
  | Some set => anyPathMatches_loop (elements set) testPath
  end.

(** ** [GetResultsDiff] *)

(** Lines 193-198: the rename substitution applied to a key of [before]. *)
Definition renamed_test (renames : RenameMap) (test : string) : string :=
  match renames with
  | None => test
  | Some r =>
      match r !! test with
      | Some rename => rename
      | None => test
      end
  end.

(** Body of the first loop (lines 193-236), with [diff] the output map
    built so far. *)
Definition first_pass_body (after : gmap string (list Z)) (filter : DiffFilterParam)
    (paths : PathSet) (renames : RenameMap)
    (diff : gmap string (list Z)) (entry : string * list Z)
  : option (gmap string (list Z)) :=
  let test := renamed_test renames entry.1 in
  let resultsBefore := entry.2 in
  if negb (anyPathMatches paths test) then Some diff
  else
    match after !! test with
    | None =>
        if negb (Deleted filter) then Some diff
        else
          b1 ← resultsBefore !! 1%nat;
          Some (<[test := [0; 0; GoInt.neg b1]]> diff)
    | Some resultsAfter =>
        if negb (Changed filter) && negb (Unchanged filter) then Some diff
        else
          b0 ← resultsBefore !! 0%nat;
          a0 ← resultsAfter !! 0%nat;
          let delta := GoInt.sub b0 a0 in
          changed ← (if decide (delta ≠ 0) then Some true
                     else b1 ← resultsBefore !! 1%nat;
                          a1 ← resultsAfter !! 1%nat;
                          Some (bool_decide (b1 ≠ a1)));
          if (negb changed && negb (Unchanged filter))
             || (changed && negb (Changed filter))
          then Some diff
          else
            let d := GoInt.sub a0 b0 in
            let improved := if decide (d > 0) then d else 0 in
            b1 ← resultsBefore !! 1%nat;
            let failingBefore := GoInt.sub b1 b0 in
            a1 ← resultsAfter !! 1%nat;
            let failingAfter := GoInt.sub a1 a0 in
            let d' := GoInt.sub failingAfter failingBefore in
            let regressed := if decide (d' > 0) then d' else 0 in
            Some (<[test := [improved; regressed; GoInt.sub a1 b1]]> diff)
    end.

(** Lines 243-249: is [test] the value of some entry of [renames]?  The
    loop breaks at the first match; [order] is the enumeration order. *)
Fixpoint renamed_loop (order : list (string * string)) (test : string) : bool :=
  match order with
  | [] => false
  | (_, is_) :: rest =>
      if decide (is_ = test) then true else renamed_loop rest test
  end.

(** Lines 242-249: the flag [renamed] of the second loop; it stays [false]
    when [renames] is nil. *)
Definition renamed (renames : RenameMap) (test : string) : bool :=
  match renames with
  | None => false
  | Some r => renamed_loop (map_to_list r) test
  end.

(** Body of the second loop (lines 241-261). *)
Definition added_pass_body (before : gmap string (list Z))
    (paths : PathSet) (renames : RenameMap)
    (diff : gmap string (list Z)) (entry : string * list Z)
  : option (gmap string (list Z)) :=
  let test := entry.1 in
  let resultsAfter := entry.2 in
  if renamed renames test then Some diff
  else if negb (anyPathMatches paths test) then Some diff
  else
    match before !! test with
    | Some _ => Some diff
    | None =>
        a0 ← resultsAfter !! 0%nat;
        a1 ← resultsAfter !! 1%nat;
        Some (<[test := [a0; GoInt.sub a1 a0; a1]]> diff)
    end.

Definition first_pass (order_before : list (string * list Z))
    (after : gmap string (list Z)) (filter : DiffFilterParam)
    (paths : PathSet) (renames : RenameMap) (diff : gmap string (list Z))
  : option (gmap string (list Z)) :=
  if Deleted filter || Changed filter
  then range_loop (first_pass_body after filter paths renames) order_before diff
  else Some diff.

Definition added_pass (order_after : list (string * list Z))
    (before : gmap string (list Z)) (filter : DiffFilterParam)
    (paths : PathSet) (renames : RenameMap) (diff : gmap string (list Z))
  : option (gmap string (list Z)) :=
  if Added filter
  then range_loop (added_pass_body before paths renames) order_after diff
  else Some diff.

(** [GetResultsDiff before after filter paths renames], run with the
    enumeration orders [order_before] and [order_after] of the two [range]
    loops.  [None] is a panic. *)
Definition GetResultsDiff (order_before order_after : list (string * list Z))
    (before after : gmap string (list Z)) (filter : DiffFilterParam)
    (paths : PathSet) (renames : RenameMap)
  : option (gmap string (list Z)) :=
  diff ← first_pass order_before after filter paths renames ∅;
  added_pass order_after before filter paths renames diff.

(** ** Fetch orchestration: [FetchRunResultsJSON], [getDiffRenames], [GetRunsDiff] *)

(** A Go [error], represented by the text its [Error()] method returns. *)
Definition error : Type := string.

(** What a call that returns [(diff, err)] can do: return with a nil
    error, return with an error, or panic. *)
Inductive outcome (A : Type) : Type :=
  | Returned (a : A)
  | Failed (err : error)
  | Panicked.
Arguments Returned {A} a.
Arguments Failed {A} err.
Arguments Panicked {A}.

(** [s[:n]]: panics when [n] exceeds the length of [s]. *)
Definition slice_to (s : string) (n : nat) : option string :=
  if decide (n ≤ String.length s)%nat then Some (String.substring 0 n s) else None.

(** [*http.Response] as far as the source reads it: the status code and
    what [ioutil.ReadAll(resp.Body)] yields. *)
Record Response : Type := {
  StatusCode : Z;
  Body : string + error
}.

(** [github.CommitFile], through its getters. *)
Record CommitFile : Type := {
  GetStatus : string;
  GetFilename : string;
  GetPreviousFilename : string
}.

(** [github.CommitsComparison]. *)
Record CommitsComparison : Type := {
  Files : list CommitFile
}.

(** [RunDiff], over the type [TestRun] of a run. *)
Record RunDiff (TestRun : Type) : Type := {
  Before : TestRun;
  BeforeSummary : gmap string (list Z);
  After : TestRun;
  AfterSummary : gmap string (list Z);
  Differences : gmap string (list Z);
  Renames : RenameMap
}.
Arguments Before {TestRun} _.
Arguments BeforeSummary {TestRun} _.
Arguments After {TestRun} _.
Arguments AfterSummary {TestRun} _.
Arguments Differences {TestRun} _.
Arguments Renames {TestRun} _.

Section Orchestration.

(** [TestRun] is declared outside run_diff.go; the code reads two of its
    fields. *)
Variable TestRun : Type.
Variable ResultsURL : TestRun → string.
Variable FullRevisionHash : TestRun → string.

(** The collaborators, as the outcomes of their calls. *)
Variable TrimSpace : string → string.
Variable client_Get : string → Response + error.
Variable format_int : Z → string.
Variable json_Unmarshal : string → gmap string (list Z) + error.
Variable IsFeatureEnabled : string → bool.
Variable GetSecret : string → string + error.
(** [githubClient.Repositories.CompareCommits], for a client built
    from [secret]: the comparison (nil or not) and the error (nil or
    not). *)
Variable CompareCommits :
  forall (secret owner repo base head : string),
    option CommitsComparison * option error.

Definition newline : string := String (Ascii.ascii_of_nat 10) EmptyString.

Definition FetchRunResultsJSON (run : TestRun) : gmap string (list Z) + error :=
  let url := TrimSpace (ResultsURL run) in
  match client_Get url with
  | inr err => inr err
  | inl resp =>
      match Body resp with
      | inr err => inr err
      | inl body =>
          if decide (StatusCode resp ≠ 200)
          then inr (url +:+ " returned HTTP status " +:+ format_int (StatusCode resp)
                        +:+ ":" +:+ newline +:+ body)
          else
            match json_Unmarshal body with
            | inr err => inr err
            | inl results => inl results
            end
      end
  end.

(** Lines 287-293: the rename map built from the compared files, later
    files overwriting earlier ones. *)
Definition collect_renames (files : list CommitFile) : gmap string string :=
  fold_left
    (fun renames file =>
       if decide (GetStatus file = "renamed")
       then <["/" +:+ GetPreviousFilename file := "/" +:+ GetFilename file]> renames
       else renames)
    files ∅.

(** [getDiffRenames]; [None] is a panic, [Some None] the nil map.  The
    arguments of the logging calls are evaluated (and may panic), their
    output is not modelled. *)
Definition getDiffRenames (shaBefore shaAfter : string) : option RenameMap :=
  if decide (shaBefore = shaAfter) then Some None
  else
    match GetSecret "github-api-token" with
    | inr err => Some None
    | inl secret =>
        let '(comparison, err) :=
          CompareCommits secret "web-platform-tests" "wpt" shaBefore shaAfter in
        match err, comparison with
        | None, Some comparison =>
            let renames := collect_renames (Files comparison) in
            if decide (size renames < 1)%nat
            then _ ← slice_to shaBefore 7; _ ← slice_to shaAfter 7; Some (Some renames)
            else Some (Some renames)
        | _, _ =>
            _ ← slice_to shaBefore 7;
            _ ← slice_to shaAfter 7;
            _ ← err;
            Some None
        end
    end.

(** [GetRunsDiff], with the enumeration orders of the two loops of
    [GetResultsDiff]. *)
Definition GetRunsDiff (order_before order_after : list (string * list Z))
    (before after : TestRun) (filter : DiffFilterParam) (paths : PathSet)
  : outcome (RunDiff TestRun) :=
  match FetchRunResultsJSON before with
  | inr err => Failed ("Failed to fetch 'before' results: " +:+ err)
  | inl beforeJSON =>
      match FetchRunResultsJSON after with
      | inr err => Failed ("Failed to fetch 'after' results: " +:+ err)
      | inl afterJSON =>
          match (if IsFeatureEnabled "diffRenames"
                 then getDiffRenames (FullRevisionHash before) (FullRevisionHash after)
                 else Some None) with
          | None => Panicked
          | Some renames =>
              match GetResultsDiff order_before order_after
                      beforeJSON afterJSON filter paths renames with
              | None => Panicked
              | Some differences =>
                  Returned {| Before := before;
                              BeforeSummary := beforeJSON;
                              After := after;
                              AfterSummary := afterJSON;
                              Differences := differences;
                              Renames := renames |}
              end
          end
      end
  end.

End Orchestration.

(** ** Run lookup: [FetchRunForSpec], [FetchRunResultsJSONForSpec],
    [FetchRunResultsJSONForParam] *)

Section RunLookup.

Variable TestRun : Type.
Variable ResultsURL : TestRun → string.
Variable TrimSpace : string → string.
Variable client_Get : string → Response + error.
Variable format_int : Z → string.
Variable json_Unmarshal : string → gmap string (list Z) + error.

(** [ProductSpec] and the calls on it are declared outside run_diff.go. *)
Variable ProductSpec : Type.
(** [LoadTestRuns(ctx, []ProductSpec{spec}, nil, spec.Revision, nil, nil,
    &one, nil)]: the error, or the runs that [AllRuns()] lists. *)
Variable LoadTestRuns : ProductSpec → list TestRun + error.
Variable ParseProductSpec : string → ProductSpec + error.
(** [base64.URLEncoding.DecodeString]. *)
Variable base64_DecodeString : string → string + error.
(** [json.Unmarshal] into a [TestRun]. *)
Variable json_Unmarshal_run : string → TestRun + error.

(** [FetchRunForSpec]: [inl None] is the pair [(nil, nil)]. *)
Definition FetchRunForSpec (spec : ProductSpec) : option TestRun + error :=
  match LoadTestRuns spec with
  | inr err => inr err
  | inl allRuns =>
      match allRuns with
      | [run] => inl (Some run)
      | _ => inl None
      end
  end.

(** [FetchRunResultsJSONForSpec]; the nil map of the pair [(nil, nil)] is
    the empty map. *)
Definition FetchRunResultsJSONForSpec (spec : ProductSpec)
  : gmap string (list Z) + error :=
  match FetchRunForSpec spec with
  | inr err => inr err
  | inl None => inl ∅
  | inl (Some run) =>
      FetchRunResultsJSON TestRun ResultsURL TrimSpace client_Get format_int
        json_Unmarshal run
  end.

Definition FetchRunResultsJSONForParam (param : string)
  : gmap string (list Z) + error :=
  match base64_DecodeString param with
  | inl afterDecoded =>
      match json_Unmarshal_run afterDecoded with
      | inr err => inr err
      | inl run =>
          FetchRunResultsJSON TestRun ResultsURL TrimSpace client_Get format_int
            json_Unmarshal run
      end
  | inr _ =>
      match ParseProductSpec param with
      | inr err => inr err
      | inl spec => FetchRunResultsJSONForSpec spec
      end
  end.

End RunLookup.

(** ** The helpers [abs] and [max] *)

Module Helpers.

Definition abs (x : Z) : Z := if decide (x < 0) then GoInt.neg x else x.

Definition max (x y : Z) : Z := if decide (x < y) then y else x.

End Helpers.

(** * Vocabulary of the properties and concrete inputs *)

(** The invariant of a summary entry: [0 ≤ passed ≤ total], both Go ints. *)
Definition valid_counts (passed total : Z) : Prop :=
  0 ≤ passed ≤ total ∧ total ≤ GoInt.int_max.

(** [s] starts with [p]. *)
Definition starts_with (s p : string) : Prop := ∃ rest, s = p +:+ rest.

(** Scope as the specification words it: the path starts with a prefix
    of the set, or the set is empty or unset. *)
Definition in_scope_as_specified (paths : PathSet) (testPath : string) : Prop :=
  (∃ set, paths = Some set ∧ ∃ path, path ∈ set ∧ starts_with testPath path)
  ∨ paths = Some ∅ ∨ paths = None.

(** What one iteration of either loop does to the output map: it panics,
    leaves the map as it is ([continue]), or assigns one key. *)
Inductive effect : Type :=
  | Panic
  | Skip
  | Emit (key : string) (value : list Z).

Definition run_effect (r : effect) (diff : gmap string (list Z))
  : option (gmap string (list Z)) :=
  match r with
  | Panic => None
  | Skip => Some diff
  | Emit key value => Some (<[key := value]> diff)
  end.

(** Every count array of the summary has at least two elements. *)
Definition no_short (summary : gmap string (list Z)) : Prop :=
  map_Forall (λ _ results, (2 ≤ length results)%nat) summary.

(** [test] is the target of some entry of [renames]. *)
Definition rename_target (renames : RenameMap) (test : string) : Prop :=
  ∃ r source, renames = Some r ∧ r !! source = Some test.

(** No entry of [renames] has [t] as its source or as its target. *)
Definition no_rename_entry (renames : RenameMap) (t : string) : Prop :=
  (∀ r, renames = Some r → r !! t = None) ∧ ¬ rename_target renames t.

(** Filters and summaries of the concrete cases. *)
Definition unchanged_only : DiffFilterParam :=
  {| Added := false; Deleted := false; Changed := false; Unchanged := true |}.

Definition changed_only : DiffFilterParam :=
  {| Added := false; Deleted := false; Changed := true; Unchanged := false |}.

Definition deleted_only : DiffFilterParam :=
  {| Added := false; Deleted := true; Changed := false; Unchanged := false |}.

Definition changed_added : DiffFilterParam :=
  {| Added := true; Deleted := false; Changed := true; Unchanged := false |}.

Definition added_only : DiffFilterParam :=
  {| Added := true; Deleted := false; Changed := false; Unchanged := false |}.

(** A rename entry whose target "/b" is itself a key of [before]. *)
Definition collision_before : gmap string (list Z) :=
  <[ "/a" := [1; 2] ]> {[ "/b" := [0; 2] ]}.
Definition collision_after : gmap string (list Z) := {[ "/b" := [2; 2] ]}.
Definition collision_renames : RenameMap := Some {[ "/a" := "/b" ]}.

(** A run as far as the orchestration reads it: its results URL and its
    full revision hash. *)
Definition example_run : Type := string * string.

(** A run without a full revision hash, and one with the forty bytes. *)
Definition short_hash_before : example_run := ("https://storage/before.json", "").
Definition short_hash_after : example_run :=
  ("https://storage/after.json", "0123456789abcdef0123456789abcdef01234567").

(** The collaborators of the example: both fetches succeed with an empty
    summary, the feature is enabled, the token is found, and the
    comparison fails. *)
Definition example_Get (url : string) : Response + error :=
  inl {| StatusCode := 200; Body := inl "{}" |}.
Definition example_Unmarshal (body : string) : gmap string (list Z) + error :=
  inl ∅.
Definition example_Compare (secret owner repo base head : string)
  : option CommitsComparison * option error :=
  (None, Some "404 Not Found").

Definition example_GetRunsDiff (before after : example_run)
  : outcome (RunDiff example_run) :=
  GetRunsDiff example_run fst snd id example_Get (λ _, "") example_Unmarshal
    (λ _, true) (λ _, inl "token") example_Compare
    [] [] before after changed_only None.

Definition all_facets : DiffFilterParam :=
  {| Added := true; Deleted := true; Changed := true; Unchanged := true |}.

(** Every entry of the summary starts with two counts that satisfy the
    invariant. *)
Definition valid_summary (summary : gmap string (list Z)) : Prop :=
  map_Forall (λ _ results,
                ∃ passed total rest,
                  results = passed :: total :: rest ∧ valid_counts passed total)
             summary.

(** A delta triple whose first two components are not negative and
    together account for at least the third. *)
Definition consistent_triple (v : list Z) : Prop :=
  ∃ improved regressed delta,
    v = [improved; regressed; delta]
    ∧ 0 ≤ improved ∧ 0 ≤ regressed ∧ delta ≤ improved + regressed.

(** * Properties *)

(** ** Integers and strings *)

Lemma wrap_in_range (z : Z) : GoInt.in_range z → GoInt.wrap z = z.
Proof.
  unfold GoInt.in_range, GoInt.int_min, GoInt.int_max, GoInt.wrap. intros H.
  rewrite Z.mod_small; lia.
Qed.

Lemma sub_self (x : Z) : GoInt.sub x x = 0.
Proof. unfold GoInt.sub. rewrite Z.sub_diag. reflexivity. Qed.

Lemma sub_valid (x y : Z) :
  0 ≤ x ≤ GoInt.int_max → 0 ≤ y ≤ GoInt.int_max → GoInt.sub x y = x - y.
Proof.
  intros Hx Hy. apply wrap_in_range.
  unfold GoInt.in_range, GoInt.int_min, GoInt.int_max in *. lia.
Qed.

Lemma neg_valid (x : Z) : 0 ≤ x ≤ GoInt.int_max → GoInt.neg x = - x.
Proof.
  intros Hx. apply wrap_in_range.
  unfold GoInt.in_range, GoInt.int_min, GoInt.int_max in *. lia.
Qed.

Lemma append_cons (c : Ascii.ascii) (p rest : string) :
  String c p +:+ rest = String c (p +:+ rest).
Proof. reflexivity. Qed.

Lemma has_prefix_starts_with (s p : string) :
  GoStrings.has_prefix s p = true ↔ starts_with s p.
Proof.
  revert s. induction p as [|c p IH]; intros s; simpl.
  - split; [intros _; exists s; reflexivity | done].
  - destruct s as [|d s].
    + split; [done | intros [rest Hrest]; discriminate].
    + destruct (decide (c = d)) as [->|Hne].
      * rewrite IH. split; intros [rest Hrest]; exists rest.
        -- rewrite append_cons. by rewrite Hrest.
        -- rewrite append_cons in Hrest. by injection Hrest.
      * split; [done | intros [rest Hrest]].
        rewrite append_cons in Hrest. congruence.
Qed.

Lemma index_from_bound (i : Z) (s substr : string) :
  GoStrings.index_from i s substr = -1 ∨ i ≤ GoStrings.index_from i s substr.
Proof.
  revert i. induction s as [|c s IH]; intros i; simpl.
  - destruct (GoStrings.has_prefix _ _); [right; lia | by left].
  - destruct (GoStrings.has_prefix _ _); [right; lia |].
    destruct (IH (i + 1)) as [->|Hle]; [by left | right; lia].
Qed.

Lemma Index_zero (s p : string) :
  GoStrings.Index s p = 0 ↔ starts_with s p.
Proof.
  rewrite <- has_prefix_starts_with. unfold GoStrings.Index.
  destruct s as [|c s]; simpl.
  - destruct (GoStrings.has_prefix _ _); [done | split; [lia | done]].
  - destruct (GoStrings.has_prefix _ _); [done |].
    split; [| done]. intros H0.
    destruct (index_from_bound (0 + 1) s p) as [Hm|Hle]; lia.
Qed.

(** ** Scope *)

(** The loop of [anyPathMatches] finds a prefix exactly when the
    enumeration contains one: its result depends on the elements, not on
    their order. *)
Lemma anyPathMatches_loop_true (order : list string) (testPath : string) :
  anyPathMatches_loop order testPath = true ↔
  ∃ path, path ∈ order ∧ starts_with testPath path.
Proof.
  induction order as [|p order IH]; simpl.
  - split; [done | intros (path & Hin & _); by apply elem_of_nil in Hin].
  - destruct (decide (GoStrings.Index testPath p = 0)) as [H0|H0].
    + split; [intros _ | done]. exists p. split; [left | by apply Index_zero].
    + rewrite IH. split.
      * intros (path & Hin & Hpre). exists path. split; [by right | done].
      * intros (path & Hin & Hpre). apply elem_of_cons in Hin as [->|Hin].
        -- by apply Index_zero in Hpre.
        -- by exists path.
Qed.

Lemma anyPathMatches_loop_perm (o1 o2 : list string) (testPath : string) :
  o1 ≡ₚ o2 → anyPathMatches_loop o1 testPath = anyPathMatches_loop o2 testPath.
Proof.
  intros Hperm. apply eq_true_iff_eq. rewrite !anyPathMatches_loop_true.
  by setoid_rewrite Hperm.
Qed.

Lemma anyPathMatches_Some (set : gset string) (testPath : string) :
  anyPathMatches (Some set) testPath = true ↔
  ∃ path, path ∈ set ∧ starts_with testPath path.
Proof.
  simpl. rewrite anyPathMatches_loop_true.
  by setoid_rewrite elem_of_elements.
Qed.

(** C2 as stated fails at an empty-but-present filter set: the
    specification puts the path "/a" in scope, [anyPathMatches] does not. *)
Lemma anyPathMatches_empty_set_counterexample :
  in_scope_as_specified (Some ∅) "/a" ∧ anyPathMatches (Some ∅) "/a" = false.
Proof. split; [right; by left | reflexivity]. Qed.

(** C2 (amended): a path is in scope exactly when the filter set is unset
    (nil), or the path starts with at least one prefix of the set; with an
    empty-but-present set no path is in scope. *)
Theorem anyPathMatches_in_scope (paths : PathSet) (testPath : string) :
  (anyPathMatches paths testPath = true ↔
   paths = None ∨
   ∃ set, paths = Some set ∧ ∃ path, path ∈ set ∧ starts_with testPath path)
  ∧ anyPathMatches (Some ∅) testPath = false.
Proof.
  split; [| reflexivity].
  destruct paths as [set|].
  - rewrite anyPathMatches_Some. split.
    + intros Hex. right. by exists set.
    + intros [Hnone | (set' & Heq & Hex)]; [done |]. by injection Heq as ->.
  - simpl. split; [by left | done].
Qed.

(** ** Loops over map entries *)

Section RangeLoop.

Context {E : Type}.
Variable body : gmap string (list Z) → E → option (gmap string (list Z)).
(** The key an iteration may assign. *)
Variable key : E → string.
Hypothesis body_effect :
  ∀ e, ∃ r, (∀ d, body d e = run_effect r d)
            ∧ ∀ k v, r = Emit k v → k = key e.

Lemma range_loop_app (l1 l2 : list E) (d : gmap string (list Z)) :
  range_loop body (l1 ++ l2) d = range_loop body l1 d ≫= range_loop body l2.
Proof using Type.
  revert d. induction l1 as [|e l1 IH]; intros d; simpl; [done |].
  destruct (body d e) as [d'|]; [apply IH | done].
Qed.

(** Invariant rule. *)
Lemma range_loop_invariant (P : gmap string (list Z) → Prop) (l : list E)
    (d d' : gmap string (list Z)) :
  (∀ e d1 d2, e ∈ l → P d1 → body d1 e = Some d2 → P d2) →
  P d → range_loop body l d = Some d' → P d'.
Proof using Type.
  revert d. induction l as [|e l IH]; intros d Hstep HP Hrun; simpl in Hrun.
  - by injection Hrun as <-.
  - destruct (body d e) as [d1|] eqn:Hbody; [| done].
    apply (IH d1); [| | done].
    + intros e' d2 d3 Hin. apply Hstep. by right.
    + apply (Hstep e d d1); [by left | done | done].
Qed.

(** A loop none of whose iterations panics returns. *)
Lemma range_loop_total (l : list E) (d : gmap string (list Z)) :
  (∀ e d1, e ∈ l → is_Some (body d1 e)) → is_Some (range_loop body l d).
Proof using Type.
  revert d. induction l as [|e l IH]; intros d Hstep; simpl; [by eexists |].
  destruct (Hstep e d) as [d1 ->]; [by left |].
  apply IH. intros e' d2 Hin. apply Hstep. by right.
Qed.

(** A key that no iteration assigns keeps its binding. *)
Lemma range_loop_lookup_other (l : list E) (t : string)
    (d d' : gmap string (list Z)) :
  (∀ e, e ∈ l → key e ≠ t) →
  range_loop body l d = Some d' → d' !! t = d !! t.
Proof using body_effect.
  intros Hkeys Hrun.
  apply (range_loop_invariant (λ d1, d1 !! t = d !! t) l d d'); [| done | done].
  intros e d1 d2 Hin HP Hbody.
  destruct (body_effect e) as (r & Hr & Hk). rewrite Hr in Hbody.
  destruct r as [| |k v]; simpl in Hbody; [done | by injection Hbody as <- |].
  injection Hbody as <-. rewrite lookup_insert_ne; [done |].
  rewrite (Hk k v eq_refl). by apply Hkeys.
Qed.

(** A bound key stays bound. *)
Lemma range_loop_is_Some (l : list E) (t : string)
    (d d' : gmap string (list Z)) :
  is_Some (d !! t) → range_loop body l d = Some d' → is_Some (d' !! t).
Proof using body_effect.
  intros Hd Hrun.
  apply (range_loop_invariant (λ d1, is_Some (d1 !! t)) l d d'); [| done | done].
  intros e d1 d2 Hin HP Hbody.
  destruct (body_effect e) as (r & Hr & _). rewrite Hr in Hbody.
  destruct r as [| |k v]; simpl in Hbody; [done | by injection Hbody as <- |].
  injection Hbody as <-. destruct (decide (k = t)) as [->|Hne].
  - rewrite lookup_insert_eq. by eexists.
  - by rewrite lookup_insert_ne.
Qed.

(** The binding of [t] after the loop, when [e0] is the only entry that
    may assign [t]: it is the one the iteration of [e0] leaves. *)
Lemma range_loop_lookup_unique (l : list E) (e0 : E) (t : string)
    (d d' : gmap string (list Z)) (r0 : effect) :
  NoDup l → e0 ∈ l →
  (∀ e, e ∈ l → key e = t → e = e0) →
  (∀ d1, body d1 e0 = run_effect r0 d1) →
  range_loop body l d = Some d' →
  ∃ d1 d2, d1 !! t = d !! t ∧ run_effect r0 d1 = Some d2 ∧ d' !! t = d2 !! t.
Proof using body_effect.
  intros Hnodup Hin Huniq Hr0 Hrun.
  apply list_elem_of_split in Hin as (l1 & l2 & ->).
  apply NoDup_app in Hnodup as (_ & Hdisj & Hnd2).
  apply NoDup_cons in Hnd2 as [Hnotin2 _].
  rewrite range_loop_app in Hrun.
  destruct (range_loop body l1 d) as [d1|] eqn:Hrun1; [| done].
  simpl in Hrun. rewrite Hr0 in Hrun.
  destruct (run_effect r0 d1) as [d2|] eqn:Hrun0; [| done].
  exists d1, d2. split; [| split; [done |]].
  - apply (range_loop_lookup_other l1); [| done].
    intros e He Hk. apply (Hdisj e He).
    rewrite (Huniq e); [by left | | done].
    apply elem_of_app. by left.
  - apply (range_loop_lookup_other l2); [| done].
    intros e He Hk. apply Hnotin2.
    rewrite <- (Huniq e); [done | | done].
    apply elem_of_app. right. by right.
Qed.

(** Two iterations that assign different keys commute. *)
Lemma body_swap (e1 e2 : E) (d : gmap string (list Z)) :
  key e1 ≠ key e2 →
  body d e1 ≫= (λ d1, body d1 e2) = body d e2 ≫= (λ d1, body d1 e1).
Proof using body_effect.
  intros Hne.
  destruct (body_effect e1) as (r1 & Hr1 & Hk1).
  destruct (body_effect e2) as (r2 & Hr2 & Hk2).
  rewrite (Hr1 d), (Hr2 d).
  destruct r1 as [| |k1 v1], r2 as [| |k2 v2]; simpl;
    rewrite ?Hr1, ?Hr2; simpl; try done.
  rewrite insert_insert_ne; [done |].
  rewrite (Hk1 k1 v1 eq_refl), (Hk2 k2 v2 eq_refl). done.
Qed.

(** The result of the loop does not depend on the enumeration order, as
    long as no two entries assign the same key. *)
Lemma range_loop_perm (l1 l2 : list E) (d : gmap string (list Z)) :
  NoDup (key <$> l1) → l1 ≡ₚ l2 →
  range_loop body l1 d = range_loop body l2 d.
Proof using body_effect.
  intros Hnodup Hperm. revert d.
  induction Hperm as [|e l1 l2 Hperm IH|e1 e2 l|l1 l2 l3 H12 IH12 H23 IH23];
    intros d.
  - done.
  - simpl. rewrite fmap_cons in Hnodup. apply NoDup_cons in Hnodup as [_ Hnd].
    destruct (body d e); [by apply IH | done].
  - rewrite !fmap_cons in Hnodup.
    apply NoDup_cons in Hnodup as [Hnotin _].
    assert (key e2 ≠ key e1) as Hne.
    { intros Heq. apply Hnotin. rewrite Heq. left. }
    pose proof (body_swap e2 e1 d Hne) as Hswap. simpl.
    destruct (body d e2) as [d2|], (body d e1) as [d1|]; simpl in Hswap.
    + destruct (body d2 e1) as [d21|], (body d1 e2) as [d12|];
        try done. by injection Hswap as ->.
    + by destruct (body d2 e1).
    + by destruct (body d1 e2).
    + done.
  - rewrite IH12; [| done]. apply IH23.
    by rewrite <- H12.
Qed.

End RangeLoop.

(** ** The two passes of [GetResultsDiff] *)

Lemma renamed_loop_true (order : list (string * string)) (test : string) :
  renamed_loop order test = true ↔ ∃ source, (source, test) ∈ order.
Proof.
  induction order as [|[k v] order IH]; simpl.
  - split; [done | intros [source Hin]; by apply elem_of_nil in Hin].
  - destruct (decide (v = test)) as [->|Hne].
    + split; [intros _; exists k; left | done].
    + rewrite IH. split; intros [source Hin]; exists source.
      * by right.
      * apply elem_of_cons in Hin as [Heq|Hin]; [congruence | done].
Qed.

(** The inner loop of the added pass gives the same answer in every
    enumeration order of [renames]. *)
Lemma renamed_loop_perm (o1 o2 : list (string * string)) (test : string) :
  o1 ≡ₚ o2 → renamed_loop o1 test = renamed_loop o2 test.
Proof.
  intros Hperm. apply eq_true_iff_eq. rewrite !renamed_loop_true.
  by setoid_rewrite Hperm.
Qed.

Lemma renamed_loop_target (r : gmap string string) (test : string) :
  renamed_loop (map_to_list r) test = true ↔ rename_target (Some r) test.
Proof.
  rewrite renamed_loop_true. unfold rename_target.
  setoid_rewrite elem_of_map_to_list. split.
  - intros [source Hsrc]. by exists r, source.
  - intros (r' & source & Heq & Hsrc). injection Heq as <-. by exists source.
Qed.

Lemma renamed_true (renames : RenameMap) (test : string) :
  renamed renames test = true ↔ rename_target renames test.
Proof.
  destruct renames as [r|]; simpl.
  - apply renamed_loop_target.
  - split; [done | intros (r & source & Heq & _); done].
Qed.

Lemma lookup_two (results : list Z) :
  (2 ≤ length results)%nat →
  ∃ x y rest, results = x :: y :: rest.
Proof.
  destruct results as [|x [|y rest]]; simpl; [lia | lia |]. intros _. by eexists _, _, _.
Qed.

Section Passes.

Variables before after : gmap string (list Z).
Variable filter : DiffFilterParam.
Variable paths : PathSet.
Variable renames : RenameMap.

Lemma first_pass_body_effect (entry : string * list Z) :
  ∃ r, (∀ d, first_pass_body after filter paths renames d entry = run_effect r d)
       ∧ ∀ k v, r = Emit k v →
                k = renamed_test renames entry.1
                ∧ anyPathMatches paths k = true
                ∧ (after !! k = None → Deleted filter = true).
Proof using Type.
  unfold first_pass_body.
  destruct (anyPathMatches paths (renamed_test renames entry.1)) eqn:Hscope;
    simpl; [| by exists Skip].
  destruct (after !! renamed_test renames entry.1) as [resultsAfter|] eqn:Hafter.
  - destruct (negb (Changed filter) && negb (Unchanged filter));
      [by exists Skip |].
    destruct (entry.2 !! 0%nat) as [b0|]; simpl; [| by exists Panic].
    destruct (resultsAfter !! 0%nat) as [a0|]; simpl; [| by exists Panic].
    destruct (decide (GoInt.sub b0 a0 ≠ 0)); simpl.
    + destruct (negb (Changed filter)); simpl; [by exists Skip |].
      destruct (entry.2 !! 1%nat) as [b1|]; simpl; [| by exists Panic].
      destruct (resultsAfter !! 1%nat) as [a1|]; simpl; [| by exists Panic].
      eexists (Emit _ _). split; [done |]. intros k v [= <- <-].
      split; [done |]. split; [done |]. by rewrite Hafter.
    + destruct (entry.2 !! 1%nat) as [b1|]; simpl; [| by exists Panic].
      destruct (resultsAfter !! 1%nat) as [a1|]; simpl; [| by exists Panic].
      destruct (_ || _); [by exists Skip |].
      eexists (Emit _ _). split; [done |]. intros k v [= <- <-].
      split; [done |]. split; [done |]. by rewrite Hafter.
  - destruct (Deleted filter) eqn:Hdeleted; simpl; [| by exists Skip].
    destruct (entry.2 !! 1%nat) as [b1|]; simpl; [| by exists Panic].
    eexists (Emit _ _). split; [done |]. intros k v [= <- <-]. done.
Qed.

Lemma added_pass_body_effect (entry : string * list Z) :
  ∃ r, (∀ d, added_pass_body before paths renames d entry = run_effect r d)
       ∧ ∀ k v, r = Emit k v →
                k = entry.1
                ∧ anyPathMatches paths k = true
                ∧ before !! k = None
                ∧ ¬ rename_target renames k.
Proof using Type.
  unfold added_pass_body.
  destruct (renamed renames entry.1) eqn:Hrenamed; [by exists Skip |].
  assert (¬ rename_target renames entry.1) as Htarget.
  { rewrite <- renamed_true. congruence. }
  destruct (anyPathMatches paths entry.1) eqn:Hscope; simpl; [| by exists Skip].
  destruct (before !! entry.1) eqn:Hbefore; [by exists Skip |].
  destruct (entry.2 !! 0%nat) as [a0|]; simpl; [| by exists Panic].
  destruct (entry.2 !! 1%nat) as [a1|]; simpl; [| by exists Panic].
  eexists (Emit _ _). split; [done |]. intros k v [= <- <-]. auto.
Qed.

Lemma first_pass_body_keys (entry : string * list Z) :
  ∃ r, (∀ d, first_pass_body after filter paths renames d entry = run_effect r d)
       ∧ ∀ k v, r = Emit k v → k = renamed_test renames entry.1.
Proof using Type.
  destruct (first_pass_body_effect entry) as (r & Hr & Hk).
  exists r. split; [done |]. intros k v Heq. by apply (Hk k v).
Qed.

Lemma added_pass_body_keys (entry : string * list Z) :
  ∃ r, (∀ d, added_pass_body before paths renames d entry = run_effect r d)
       ∧ ∀ k v, r = Emit k v → k = entry.1.
Proof using Type.
  destruct (added_pass_body_effect entry) as (r & Hr & Hk).
  exists r. split; [done |]. intros k v Heq. by apply (Hk k v).
Qed.

(** Neither body panics on arrays of two or more elements. *)
Lemma first_pass_body_total (d : gmap string (list Z)) (entry : string * list Z) :
  (2 ≤ length entry.2)%nat → no_short after →
  is_Some (first_pass_body after filter paths renames d entry).
Proof using Type.
  intros Hlen Hafter. unfold first_pass_body.
  apply lookup_two in Hlen as (b0 & b1 & rest & ->).
  destruct (negb _); [by eexists |].
  destruct (after !! _) as [resultsAfter|] eqn:Hlookup.
  - apply Hafter in Hlookup. apply lookup_two in Hlookup as (a0 & a1 & rest' & ->).
    destruct (_ && _); [by eexists |]. simpl.
    destruct (decide (GoInt.sub b0 a0 ≠ 0)); simpl;
      match goal with
      | |- is_Some (if ?c then _ else _) => destruct c; by eexists
      end.
  - destruct (negb _); by eexists.
Qed.

Lemma added_pass_body_total (d : gmap string (list Z)) (entry : string * list Z) :
  (2 ≤ length entry.2)%nat →
  is_Some (added_pass_body before paths renames d entry).
Proof using Type.
  intros Hlen. unfold added_pass_body.
  apply lookup_two in Hlen as (a0 & a1 & rest & ->).
  destruct (renamed renames _); [by eexists |].
  destruct (negb _); [by eexists |].
  destruct (before !! _); by eexists.
Qed.

End Passes.

(** ** Enumeration orders *)

Lemma range_of_elem {V : Type} (m : gmap string V) (l : list (string * V))
    (k : string) (v : V) :
  range_of m l → (k, v) ∈ l ↔ m !! k = Some v.
Proof. intros Hrange. rewrite Hrange. apply elem_of_map_to_list. Qed.

Lemma range_of_NoDup_keys {V : Type} (m : gmap string V) (l : list (string * V)) :
  range_of m l → NoDup l.*1.
Proof. intros Hrange. rewrite Hrange. apply NoDup_fst_map_to_list. Qed.

Lemma range_of_NoDup {V : Type} (m : gmap string V) (l : list (string * V)) :
  range_of m l → NoDup l.
Proof. intros Hrange. rewrite Hrange. apply NoDup_map_to_list. Qed.

Lemma range_of_canonical {V : Type} (m : gmap string V) :
  range_of m (map_to_list m).
Proof. unfold range_of. reflexivity. Qed.

Lemma range_of_singleton {V : Type} (k : string) (v : V) (l : list (string * V)) :
  range_of {[k := v]} l → l = [(k, v)].
Proof.
  unfold range_of. rewrite map_to_list_singleton. apply Permutation_singleton_r.
Qed.

Lemma range_of_key_unique {V : Type} (m : gmap string V) (l : list (string * V))
    (k : string) (v v' : V) :
  range_of m l → (k, v) ∈ l → (k, v') ∈ l → v = v'.
Proof.
  intros Hrange Hv Hv'.
  apply (range_of_elem m l k v Hrange) in Hv.
  apply (range_of_elem m l k v' Hrange) in Hv'. congruence.
Qed.

(** ** Whole passes *)

Section PassLemmas.

Variables before after : gmap string (list Z).
Variable filter : DiffFilterParam.
Variable paths : PathSet.
Variable renames : RenameMap.

Lemma first_pass_total (ob : list (string * list Z)) (d : gmap string (list Z)) :
  range_of before ob → no_short before → no_short after →
  is_Some (first_pass ob after filter paths renames d).
Proof using Type.
  intros Hrange Hbefore Hafter. unfold first_pass.
  destruct (_ || _); [| by eexists].
  apply range_loop_total. intros [s v] d1 Hin.
  apply first_pass_body_total; [| done].
  apply (range_of_elem before ob s v Hrange) in Hin. by apply Hbefore in Hin.
Qed.

Lemma added_pass_total (oa : list (string * list Z)) (d : gmap string (list Z)) :
  range_of after oa → no_short after →
  is_Some (added_pass oa before filter paths renames d).
Proof using Type.
  intros Hrange Hafter. unfold added_pass.
  destruct (Added filter); [| by eexists].
  apply range_loop_total. intros [s v] d1 Hin.
  apply added_pass_body_total.
  apply (range_of_elem after oa s v Hrange) in Hin. by apply Hafter in Hin.
Qed.

(** The first pass changes the binding of [t] only through an entry of
    [before] whose substituted path is [t], and only if [t] is in
    scope. *)
Lemma first_pass_lookup (ob : list (string * list Z)) (t : string)
    (d d' : gmap string (list Z)) :
  first_pass ob after filter paths renames d = Some d' →
  d' !! t = d !! t
  ∨ (Deleted filter || Changed filter = true
     ∧ anyPathMatches paths t = true
     ∧ ∃ s v, (s, v) ∈ ob ∧ renamed_test renames s = t).
Proof using Type.
  unfold first_pass. destruct (Deleted filter || Changed filter);
    [| intros [= <-]; by left].
  apply (range_loop_invariant _
           (λ d1, d1 !! t = d !! t
                  ∨ (true = true ∧ anyPathMatches paths t = true
                     ∧ ∃ s v, (s, v) ∈ ob ∧ renamed_test renames s = t)));
    [| by left].
  intros e d1 d2 Hin HP Hbody.
  destruct (first_pass_body_effect after filter paths renames e) as (r & Hr & Hk).
  rewrite Hr in Hbody.
  destruct r as [| |k v]; simpl in Hbody; [done | by injection Hbody as <- |].
  injection Hbody as <-. destruct (Hk k v eq_refl) as (Hkey & Hscope & _).
  destruct (decide (k = t)) as [->|Hne].
  - right. split; [done |]. split; [done |].
    exists e.1, e.2. split; [by destruct e | done].
  - by rewrite lookup_insert_ne.
Qed.

(** The added pass changes the binding of [t] only if [t] is a key of
    [after], absent from [before], in scope and not a rename target. *)
Lemma added_pass_lookup (oa : list (string * list Z)) (t : string)
    (d d' : gmap string (list Z)) :
  added_pass oa before filter paths renames d = Some d' →
  d' !! t = d !! t
  ∨ (Added filter = true
     ∧ anyPathMatches paths t = true
     ∧ before !! t = None
     ∧ ¬ rename_target renames t
     ∧ ∃ v, (t, v) ∈ oa).
Proof using Type.
  unfold added_pass. destruct (Added filter); [| intros [= <-]; by left].
  apply (range_loop_invariant _
           (λ d1, d1 !! t = d !! t
                  ∨ (true = true ∧ anyPathMatches paths t = true
                     ∧ before !! t = None ∧ ¬ rename_target renames t
                     ∧ ∃ v, (t, v) ∈ oa)));
    [| by left].
  intros e d1 d2 Hin HP Hbody.
  destruct (added_pass_body_effect before paths renames e) as (r & Hr & Hk).
  rewrite Hr in Hbody.
  destruct r as [| |k v]; simpl in Hbody; [done | by injection Hbody as <- |].
  injection Hbody as <-.
  destruct (Hk k v eq_refl) as (Hkey & Hscope & Hbefore & Htarget).
  destruct (decide (k = t)) as [->|Hne].
  - right. repeat (split; [done |]).
    exists e.2. rewrite Hkey. by destruct e.
  - by rewrite lookup_insert_ne.
Qed.

Lemma first_pass_is_Some (ob : list (string * list Z)) (t : string)
    (d d' : gmap string (list Z)) :
  is_Some (d !! t) →
  first_pass ob after filter paths renames d = Some d' → is_Some (d' !! t).
Proof using Type.
  unfold first_pass. destruct (_ || _); [| by intros ? [= <-]].
  intros Hd. apply (range_loop_is_Some _ (λ e, renamed_test renames e.1)); [| done].
  apply first_pass_body_keys.
Qed.

Lemma added_pass_is_Some (oa : list (string * list Z)) (t : string)
    (d d' : gmap string (list Z)) :
  is_Some (d !! t) →
  added_pass oa before filter paths renames d = Some d' → is_Some (d' !! t).
Proof using Type.
  unfold added_pass. destruct (Added filter); [| by intros ? [= <-]].
  intros Hd. apply (range_loop_is_Some _ fst); [| done].
  apply added_pass_body_keys.
Qed.

(** [GetResultsDiff] returns on summaries without short arrays. *)
Lemma GetResultsDiff_total (ob oa : list (string * list Z)) :
  range_of before ob → range_of after oa →
  no_short before → no_short after →
  is_Some (GetResultsDiff ob oa before after filter paths renames).
Proof using Type.
  intros Hob Hoa Hbefore Hafter. unfold GetResultsDiff.
  destruct (first_pass_total ob ∅ Hob Hbefore Hafter) as [d ->]. simpl.
  by apply added_pass_total.
Qed.

End PassLemmas.

(** ** Path scoping (C8) *)

Lemma GetResultsDiff_lookup_scope (ob oa : list (string * list Z))
    (before after : gmap string (list Z)) (filter : DiffFilterParam)
    (paths : PathSet) (renames : RenameMap)
    (d : gmap string (list Z)) (t : string) :
  GetResultsDiff ob oa before after filter paths renames = Some d →
  is_Some (d !! t) → anyPathMatches paths t = true.
Proof.
  unfold GetResultsDiff. intros Hrun [v Hv].
  destruct (first_pass ob after filter paths renames ∅) as [d1|] eqn:Hfirst;
    [| done].
  simpl in Hrun.
  destruct (added_pass_lookup before filter paths renames oa t d1 d Hrun)
    as [Hsame | (_ & Hscope & _)]; [| done].
  destruct (first_pass_lookup after filter paths renames ob t ∅ d1 Hfirst)
    as [Hempty | (_ & Hscope & _)]; [| done].
  rewrite Hsame, Hempty, lookup_empty in Hv. done.
Qed.

(** C8: whatever the summaries, the rename map, the filter and the
    enumeration orders, a path that starts with no prefix of the path
    filter set is not a key of the output of [GetResultsDiff]; so with the
    set holding only "/css/", "/html/foo.html" is never a key. *)
Theorem GetResultsDiff_out_of_scope (ob oa : list (string * list Z))
    (before after : gmap string (list Z)) (filter : DiffFilterParam)
    (renames : RenameMap) (d : gmap string (list Z)) :
  (∀ (set : gset string) (t : string),
     GetResultsDiff ob oa before after filter (Some set) renames = Some d →
     (∀ path, path ∈ set → ¬ starts_with t path) →
     d !! t = None)
  ∧ (GetResultsDiff ob oa before after filter (Some {[ "/css/" ]}) renames = Some d →
     d !! "/html/foo.html" = None).
Proof.
  assert (∀ (set : gset string) (t : string),
     GetResultsDiff ob oa before after filter (Some set) renames = Some d →
     (∀ path, path ∈ set → ¬ starts_with t path) →
     d !! t = None) as Hgeneral.
  { intros set t Hrun Hnone.
    destruct (d !! t) as [v|] eqn:Hv; [| done].
    assert (anyPathMatches (Some set) t = true) as Hscope.
    { apply (GetResultsDiff_lookup_scope _ _ _ _ _ _ _ _ _ Hrun). by exists v. }
    apply anyPathMatches_Some in Hscope as (path & Hin & Hpre).
    by destruct (Hnone path Hin). }
  split; [done |].
  intros Hrun. apply (Hgeneral _ _ Hrun).
  intros path ->%elem_of_singleton [rest Hrest]. discriminate Hrest.
Qed.

(** ** What one iteration emits *)

Lemma renamed_test_cases (renames : RenameMap) (s : string) :
  renamed_test renames s = s ∨ rename_target renames (renamed_test renames s).
Proof.
  unfold renamed_test. destruct renames as [r|]; [| by left].
  destruct (r !! s) as [t|] eqn:Hs; [| by left].
  right. by exists r, s.
Qed.

Lemma max_zero (d : Z) : (if decide (d > 0) then d else 0) = Z.max 0 d.
Proof. destruct (decide (d > 0)); lia. Qed.

(** An entry of [after] that is new, in scope and not a rename target. *)
Lemma added_pass_body_emit (before : gmap string (list Z)) (paths : PathSet)
    (renames : RenameMap) (t : string) (ap atot : Z) (rest : list Z)
    (d : gmap string (list Z)) :
  before !! t = None → anyPathMatches paths t = true →
  ¬ rename_target renames t →
  added_pass_body before paths renames d (t, ap :: atot :: rest)
  = run_effect (Emit t [ap; GoInt.sub atot ap; atot]) d.
Proof.
  intros Hbefore Hscope Htarget. unfold added_pass_body. simpl.
  destruct (renamed renames t) eqn:Hrenamed.
  { by apply renamed_true in Hrenamed. }
  by rewrite Hscope, Hbefore.
Qed.

(** An entry of [before] whose substituted path is in scope and absent
    from [after]. *)
Lemma first_pass_body_deleted (after : gmap string (list Z))
    (filter : DiffFilterParam) (paths : PathSet) (renames : RenameMap)
    (s : string) (bp btot : Z) (rest : list Z) (d : gmap string (list Z)) :
  anyPathMatches paths (renamed_test renames s) = true →
  after !! renamed_test renames s = None →
  first_pass_body after filter paths renames d (s, bp :: btot :: rest)
  = run_effect (if Deleted filter
                then Emit (renamed_test renames s) [0; 0; GoInt.neg btot]
                else Skip) d.
Proof.
  intros Hscope Hafter. unfold first_pass_body. simpl.
  rewrite Hscope, Hafter. simpl. by destruct (Deleted filter).
Qed.

(** An entry of [before] whose substituted path is in scope and carries
    the same two counts in [after]. *)
Lemma first_pass_body_unchanged (after : gmap string (list Z))
    (filter : DiffFilterParam) (paths : PathSet) (renames : RenameMap)
    (s : string) (p tot : Z) (rest rest' : list Z) (d : gmap string (list Z)) :
  anyPathMatches paths (renamed_test renames s) = true →
  after !! renamed_test renames s = Some (p :: tot :: rest') →
  first_pass_body after filter paths renames d (s, p :: tot :: rest)
  = run_effect (if Unchanged filter
                then Emit (renamed_test renames s) [0; 0; 0]
                else Skip) d.
Proof.
  intros Hscope Hafter. unfold first_pass_body. simpl.
  rewrite Hscope, Hafter. simpl.
  rewrite !sub_self.
  destruct (decide (0 ≠ 0)) as [Hne|_]; [done |]. simpl.
  rewrite bool_decide_eq_false_2 by (intros Hne; by apply Hne). simpl.
  destruct (Changed filter), (Unchanged filter); simpl; try done.
Qed.

(** An entry of [before] whose substituted path is in scope and carries
    different counts in [after], with the facet [Changed] set: the triple
    in Go's arithmetic. *)
Lemma first_pass_body_changed_go (after : gmap string (list Z))
    (filter : DiffFilterParam) (paths : PathSet) (renames : RenameMap)
    (s : string) (bp btot ap atot : Z) (rest rest' : list Z)
    (d : gmap string (list Z)) :
  anyPathMatches paths (renamed_test renames s) = true →
  after !! renamed_test renames s = Some (ap :: atot :: rest') →
  Changed filter = true →
  GoInt.sub bp ap ≠ 0 ∨ btot ≠ atot →
  first_pass_body after filter paths renames d (s, bp :: btot :: rest)
  = run_effect
      (Emit (renamed_test renames s)
         [Z.max 0 (GoInt.sub ap bp);
          Z.max 0 (GoInt.sub (GoInt.sub atot ap) (GoInt.sub btot bp));
          GoInt.sub atot btot]) d.
Proof.
  intros Hscope Hafter Hchanged Hdiff. unfold first_pass_body. simpl.
  rewrite Hscope, Hafter, Hchanged. simpl.
  destruct (decide (GoInt.sub bp ap ≠ 0)) as [Hne|Heq]; simpl.
  - by rewrite !max_zero.
  - rewrite bool_decide_eq_true_2 by (destruct Hdiff; done). simpl.
    by rewrite !max_zero.
Qed.

(** The same, for counts that satisfy the invariant of a summary, where
    no operation wraps around. *)
Lemma first_pass_body_changed (after : gmap string (list Z))
    (filter : DiffFilterParam) (paths : PathSet) (renames : RenameMap)
    (s : string) (bp btot ap atot : Z) (rest rest' : list Z)
    (d : gmap string (list Z)) :
  anyPathMatches paths (renamed_test renames s) = true →
  after !! renamed_test renames s = Some (ap :: atot :: rest') →
  Changed filter = true →
  valid_counts bp btot → valid_counts ap atot →
  bp ≠ ap ∨ btot ≠ atot →
  first_pass_body after filter paths renames d (s, bp :: btot :: rest)
  = run_effect
      (Emit (renamed_test renames s)
         [Z.max 0 (ap - bp);
          Z.max 0 ((atot - ap) - (btot - bp));
          atot - btot]) d.
Proof.
  intros Hscope Hafter Hchanged [Hb Hbmax] [Ha Hamax] Hdiff.
  rewrite (first_pass_body_changed_go after filter paths renames s bp btot ap atot
             rest rest' d Hscope Hafter Hchanged).
  - rewrite (sub_valid ap bp), (sub_valid atot ap), (sub_valid btot bp),
      (sub_valid atot btot), (sub_valid (atot - ap) (btot - bp)); (done || lia).
  - rewrite (sub_valid bp ap) by lia. lia.
Qed.

(** ** Added paths (C6) *)

(** The first pass assigns only substituted paths of [before]: a path
    that is neither a key of [before] nor a rename target is left alone. *)
Lemma first_pass_lookup_fresh (ob : list (string * list Z))
    (before after : gmap string (list Z)) (filter : DiffFilterParam)
    (paths : PathSet) (renames : RenameMap) (t : string)
    (d d' : gmap string (list Z)) :
  range_of before ob → before !! t = None → ¬ rename_target renames t →
  first_pass ob after filter paths renames d = Some d' →
  d' !! t = d !! t.
Proof.
  intros Hob Hbefore Htarget Hrun.
  destruct (first_pass_lookup after filter paths renames ob t d d' Hrun)
    as [Hsame | (_ & _ & s & v & Hin & Hkey)]; [done |].
  apply (range_of_elem before ob s v Hob) in Hin.
  destruct (renamed_test_cases renames s) as [Hs | Hs].
  - rewrite Hs in Hkey. congruence.
  - rewrite Hkey in Hs. done.
Qed.

(** C6: a path in scope that is a key of [after] only, with counts
    [(ap, atot)], and is not the target of a rename entry, is a key of the
    output exactly when the facet [Added] is set, and its triple is then
    [[ap, atot - ap, atot]]. *)
Theorem GetResultsDiff_added (ob oa : list (string * list Z))
    (before after : gmap string (list Z)) (filter : DiffFilterParam)
    (paths : PathSet) (renames : RenameMap)
    (t : string) (ap atot : Z) (rest : list Z) :
  range_of before ob → range_of after oa →
  no_short before → no_short after →
  anyPathMatches paths t = true →
  before !! t = None →
  after !! t = Some (ap :: atot :: rest) →
  valid_counts ap atot →
  ¬ rename_target renames t →
  ∃ d, GetResultsDiff ob oa before after filter paths renames = Some d
       ∧ (is_Some (d !! t) ↔ Added filter = true)
       ∧ ∀ v, d !! t = Some v → v = [ap; atot - ap; atot].
Proof.
  intros Hob Hoa Hnb Hna Hscope Hbefore Hafter [Hcounts Hmax] Htarget.
  destruct (GetResultsDiff_total before after filter paths renames ob oa
              Hob Hoa Hnb Hna) as [d Hrun].
  exists d. split; [done |].
  unfold GetResultsDiff in Hrun.
  destruct (first_pass ob after filter paths renames ∅) as [d1|] eqn:Hfirst;
    [| done].
  simpl in Hrun.
  assert (d1 !! t = None) as Hd1.
  { rewrite (first_pass_lookup_fresh ob before after filter paths renames t ∅ d1);
      [apply lookup_empty | done..]. }
  unfold added_pass in Hrun. destruct (Added filter) eqn:Hadded.
  - destruct (range_loop_lookup_unique
                (added_pass_body before paths renames) fst
                (added_pass_body_keys before paths renames)
                oa (t, ap :: atot :: rest) t d1 d
                (Emit t [ap; GoInt.sub atot ap; atot]))
      as (d2 & d3 & _ & Hemit & Hd); [| | | | done |].
    + by apply (range_of_NoDup after).
    + by apply (range_of_elem after oa t _ Hoa).
    + intros [s v] Hin Hkey. simpl in Hkey. subst s.
      apply (range_of_elem after oa t v Hoa) in Hin. congruence.
    + intros d0. by apply added_pass_body_emit.
    + simpl in Hemit. injection Hemit as <-.
      rewrite lookup_insert_eq in Hd. rewrite Hd.
      rewrite (sub_valid atot ap) by lia.
      split; [split; [done | by eexists] | by intros v [= <-]].
  - injection Hrun as <-. rewrite Hd1. split; [| done].
    split; [by intros [v Hv] | done].
Qed.

(** ** Paths of [before]: unchanged, changed, deleted (C1, C4, C7) *)

(** The binding of the substituted path of [s] after the first pass, when
    no other key of [before] is substituted to the same path. *)
Lemma first_pass_lookup_unique (ob : list (string * list Z))
    (before after : gmap string (list Z)) (filter : DiffFilterParam)
    (paths : PathSet) (renames : RenameMap)
    (s : string) (resultsBefore : list Z) (r0 : effect)
    (d d' : gmap string (list Z)) :
  range_of before ob →
  before !! s = Some resultsBefore →
  (∀ s' v', before !! s' = Some v' →
            renamed_test renames s' = renamed_test renames s → s' = s) →
  (∀ d1, first_pass_body after filter paths renames d1 (s, resultsBefore)
         = run_effect r0 d1) →
  range_loop (first_pass_body after filter paths renames) ob d = Some d' →
  ∃ d1 d2, d1 !! renamed_test renames s = d !! renamed_test renames s
           ∧ run_effect r0 d1 = Some d2
           ∧ d' !! renamed_test renames s = d2 !! renamed_test renames s.
Proof.
  intros Hob Hs Huniq Hr0 Hrun.
  apply (range_loop_lookup_unique
           (first_pass_body after filter paths renames)
           (λ e, renamed_test renames e.1)
           (first_pass_body_keys after filter paths renames)
           ob (s, resultsBefore)); [| | | done | done].
  - by apply (range_of_NoDup before).
  - by apply (range_of_elem before ob s _ Hob).
  - intros [s' v'] Hin Hkey. simpl in Hkey.
    apply (range_of_elem before ob s' v' Hob) in Hin.
    assert (s' = s) as -> by by apply (Huniq s' v').
    congruence.
Qed.

(** The added pass leaves the substituted path of a key of [before]
    alone: it is a key of [before] or a rename target. *)
Lemma added_pass_lookup_substituted (oa : list (string * list Z))
    (before : gmap string (list Z)) (filter : DiffFilterParam)
    (paths : PathSet) (renames : RenameMap)
    (s : string) (d d' : gmap string (list Z)) :
  is_Some (before !! s) →
  added_pass oa before filter paths renames d = Some d' →
  d' !! renamed_test renames s = d !! renamed_test renames s.
Proof.
  intros [v Hs] Hrun.
  destruct (added_pass_lookup before filter paths renames oa
              (renamed_test renames s) d d' Hrun)
    as [Hsame | (_ & _ & Hbefore & Htarget & _)]; [done |].
  destruct (renamed_test_cases renames s) as [Heq | Ht]; [| done].
  rewrite Heq in Hbefore. congruence.
Qed.

Lemma no_rename_entry_fixed (renames : RenameMap) (t : string) :
  no_rename_entry renames t → renamed_test renames t = t.
Proof.
  intros [Hsrc _]. unfold renamed_test. destruct renames as [r|]; [| done].
  by rewrite (Hsrc r eq_refl).
Qed.

Lemma no_rename_entry_unique (renames : RenameMap) (t s : string) :
  no_rename_entry renames t → renamed_test renames s = t → s = t.
Proof.
  intros [_ Htarget] Hkey.
  destruct (renamed_test_cases renames s) as [Heq | Ht]; [congruence |].
  rewrite Hkey in Ht. done.
Qed.

(** C1 as stated fails for the filter with only [Unchanged] set: the path
    "/a" is in scope, has no rename entry and carries the counts [(1, 2)] in
    both summaries, the facet [Unchanged] is set, and the path is not a key
    of the output. *)
Lemma GetResultsDiff_unchanged_only_counterexample :
  anyPathMatches None "/a" = true
  ∧ no_rename_entry None "/a"
  ∧ ({[ "/a" := [1; 2] ]} : gmap string (list Z)) !! "/a" = Some [1; 2]
  ∧ Unchanged unchanged_only = true
  ∧ range_of {[ "/a" := [1; 2] ]} [("/a", [1; 2])]
  ∧ ∃ d, GetResultsDiff [("/a", [1; 2])] [("/a", [1; 2])]
           {[ "/a" := [1; 2] ]} {[ "/a" := [1; 2] ]} unchanged_only None None
         = Some d
         ∧ d !! "/a" = None.
Proof.
  split; [done |]. split.
  { split; [done |]. by intros (r & s & Heq & _). }
  split; [done |]. split; [done |].
  split; [unfold range_of; by rewrite map_to_list_singleton |].
  exists ∅. split; reflexivity.
Qed.

(** C1 (amended): a path in scope, with no rename entry having it as
    source or target, that carries identical counts in both summaries is a
    key of the output exactly when the facet [Unchanged] is set together
    with [Deleted] or [Changed] (the first loop runs only under one of
    these two); its triple is then [[0, 0, 0]]. *)
Theorem GetResultsDiff_unchanged (ob oa : list (string * list Z))
    (before after : gmap string (list Z)) (filter : DiffFilterParam)
    (paths : PathSet) (renames : RenameMap)
    (t : string) (p tot : Z) (rest rest' : list Z) :
  range_of before ob → range_of after oa →
  no_short before → no_short after →
  anyPathMatches paths t = true →
  no_rename_entry renames t →
  before !! t = Some (p :: tot :: rest) →
  after !! t = Some (p :: tot :: rest') →
  ∃ d, GetResultsDiff ob oa before after filter paths renames = Some d
       ∧ (is_Some (d !! t) ↔
          Unchanged filter = true
          ∧ (Deleted filter = true ∨ Changed filter = true))
       ∧ ∀ v, d !! t = Some v → v = [0; 0; 0].
Proof.
  intros Hob Hoa Hnb Hna Hscope Hno Hbefore Hafter.
  pose proof (no_rename_entry_fixed renames t Hno) as Hfixed.
  destruct (GetResultsDiff_total before after filter paths renames ob oa
              Hob Hoa Hnb Hna) as [d Hrun].
  exists d. split; [done |].
  unfold GetResultsDiff in Hrun.
  destruct (first_pass ob after filter paths renames ∅) as [d1|] eqn:Hfirst;
    [| done].
  simpl in Hrun.
  pose proof (added_pass_lookup_substituted oa before filter paths renames t d1 d
                (mk_is_Some _ _ Hbefore) Hrun) as Hsecond.
  rewrite Hfixed in Hsecond. rewrite Hsecond. clear Hsecond Hrun.
  unfold first_pass in Hfirst.
  destruct (Deleted filter || Changed filter) eqn:Hgate.
  - destruct (first_pass_lookup_unique ob before after filter paths renames
                t (p :: tot :: rest)
                (if Unchanged filter then Emit (renamed_test renames t) [0; 0; 0]
                 else Skip) ∅ d1 Hob Hbefore)
      as (d2 & d3 & Hd2 & Hemit & Hd1); [| | done |].
    + intros s' v' _ Hkey. rewrite Hfixed in Hkey.
      by apply (no_rename_entry_unique renames t s' Hno).
    + intros d0. apply (first_pass_body_unchanged _ _ _ _ _ _ _ _ rest');
        by rewrite Hfixed.
    + rewrite Hfixed in Hd1, Hd2, Hemit. rewrite Hd1.
      apply orb_true_iff in Hgate.
      destruct (Unchanged filter); simpl in Hemit; injection Hemit as <-.
      * rewrite lookup_insert_eq.
        split; [split; [done | by eexists] | by intros v [= <-]].
      * rewrite Hd2, lookup_empty.
        split; [| done]. split; [by intros [v Hv] | by intros [? _]].
  - injection Hfirst as <-. rewrite lookup_empty.
    apply orb_false_iff in Hgate as [Hdel Hch].
    split; [| done]. split; [by intros [v Hv] |].
    intros [_ [Hd | Hc]]; congruence.
Qed.

(** C4: for an entry [s] of [before] with counts [(bp, btot)] whose
    substituted path [t] is in scope and carries different counts
    [(ap, atot)] in [after], with the facet [Changed] set, the iteration of
    the first loop at [s] assigns
    [[max 0 (ap - bp), max 0 ((atot - ap) - (btot - bp)), atot - btot]] to
    [t], and this is the triple of [t] in the output when no other key of
    [before] is substituted to [t].  The first two components can both be
    nonzero: from [(1, 2)] to [(2, 5)] the triple is [[1, 2, 3]]. *)
Theorem GetResultsDiff_changed :
  (∀ (ob oa : list (string * list Z))
     (before after : gmap string (list Z)) (filter : DiffFilterParam)
     (paths : PathSet) (renames : RenameMap)
     (s : string) (bp btot ap atot : Z) (rest rest' : list Z),
     anyPathMatches paths (renamed_test renames s) = true →
     before !! s = Some (bp :: btot :: rest) →
     after !! renamed_test renames s = Some (ap :: atot :: rest') →
     valid_counts bp btot → valid_counts ap atot →
     Changed filter = true →
     bp ≠ ap ∨ btot ≠ atot →
     (∀ diff,
        first_pass_body after filter paths renames diff (s, bp :: btot :: rest)
        = Some (<[renamed_test renames s :=
                    [Z.max 0 (ap - bp);
                     Z.max 0 ((atot - ap) - (btot - bp));
                     atot - btot]]> diff))
     ∧ (range_of before ob → range_of after oa →
        no_short before → no_short after →
        (∀ s' v', before !! s' = Some v' →
                  renamed_test renames s' = renamed_test renames s → s' = s) →
        ∃ d, GetResultsDiff ob oa before after filter paths renames = Some d
             ∧ d !! renamed_test renames s
               = Some [Z.max 0 (ap - bp);
                       Z.max 0 ((atot - ap) - (btot - bp));
                       atot - btot]))
  ∧ GetResultsDiff [("/t", [1; 2])] [("/t", [2; 5])]
      {[ "/t" := [1; 2] ]} {[ "/t" := [2; 5] ]} changed_only None None
    = Some {[ "/t" := [1; 2; 3] ]}.
Proof.
  split; [| reflexivity].
  intros ob oa before after filter paths renames s bp btot ap atot rest rest'
    Hscope Hbefore Hafter Hb Ha Hchanged Hdiff.
  split.
  { intros diff.
    by rewrite (first_pass_body_changed after filter paths renames s bp btot ap atot
                  rest rest' diff). }
  intros Hob Hoa Hnb Hna Huniq.
  destruct (GetResultsDiff_total before after filter paths renames ob oa
              Hob Hoa Hnb Hna) as [d Hrun].
  exists d. split; [done |].
  unfold GetResultsDiff in Hrun.
  destruct (first_pass ob after filter paths renames ∅) as [d1|] eqn:Hfirst;
    [| done].
  simpl in Hrun.
  rewrite (added_pass_lookup_substituted oa before filter paths renames s d1 d
             (mk_is_Some _ _ Hbefore) Hrun).
  unfold first_pass in Hfirst. rewrite Hchanged, orb_true_r in Hfirst.
  destruct (first_pass_lookup_unique ob before after filter paths renames
              s (bp :: btot :: rest)
              (Emit (renamed_test renames s)
                 [Z.max 0 (ap - bp); Z.max 0 ((atot - ap) - (btot - bp));
                  atot - btot]) ∅ d1 Hob Hbefore Huniq)
    as (d2 & d3 & _ & Hemit & Hd1); [| done |].
  - intros d0. by apply (first_pass_body_changed _ _ _ _ _ _ _ _ _ rest rest').
  - simpl in Hemit. injection Hemit as <-.
    by rewrite Hd1, lookup_insert_eq.
Qed.

(** C7 as stated fails for a path with a rename entry whose target is
    absent from [after]: "/a" is in scope, a key of [before] only, renamed
    to "/c" which [after] does not have, the facet [Deleted] is set, and
    the output has the key "/c", not "/a". *)
Lemma GetResultsDiff_deleted_renamed_counterexample :
  anyPathMatches None "/a" = true
  ∧ ({[ "/a" := [1; 2] ]} : gmap string (list Z)) !! "/a" = Some [1; 2]
  ∧ (∅ : gmap string (list Z)) !! "/a" = None
  ∧ (∅ : gmap string (list Z)) !! "/c" = None
  ∧ Deleted deleted_only = true
  ∧ range_of {[ "/a" := [1; 2] ]} [("/a", [1; 2])]
  ∧ range_of (∅ : gmap string (list Z)) []
  ∧ ∃ d, GetResultsDiff [("/a", [1; 2])] []
           {[ "/a" := [1; 2] ]} ∅ deleted_only None (Some {[ "/a" := "/c" ]})
         = Some d
         ∧ d !! "/a" = None
         ∧ d !! "/c" = Some [0; 0; -2].
Proof.
  repeat (split; [done |]).
  split; [unfold range_of; by rewrite map_to_list_singleton |].
  split; [unfold range_of; by rewrite map_to_list_empty |].
  exists {[ "/c" := [0; 0; -2] ]}. split; [reflexivity |]. split; reflexivity.
Qed.

(** An emitted key is bound after the loop. *)
Lemma first_pass_emitted (ob : list (string * list Z))
    (after : gmap string (list Z)) (filter : DiffFilterParam)
    (paths : PathSet) (renames : RenameMap)
    (e : string * list Z) (k : string) (v : list Z)
    (d d' : gmap string (list Z)) :
  e ∈ ob →
  (∀ d1, first_pass_body after filter paths renames d1 e = run_effect (Emit k v) d1) →
  range_loop (first_pass_body after filter paths renames) ob d = Some d' →
  is_Some (d' !! k).
Proof.
  intros Hin Hemit Hrun.
  apply list_elem_of_split in Hin as (l1 & l2 & ->).
  rewrite range_loop_app in Hrun.
  destruct (range_loop _ l1 d) as [d1|]; [| done].
  simpl in Hrun. rewrite Hemit in Hrun. simpl in Hrun.
  apply (range_loop_is_Some _ (λ e, renamed_test renames e.1)
           (first_pass_body_keys after filter paths renames) l2 k (<[k:=v]> d1) d');
    [| done].
  rewrite lookup_insert_eq. by eexists.
Qed.

(** C7 (amended): for a key [s] of [before] with counts [(bp, btot)]
    whose substituted path [u] ([s] itself when it has no rename entry) is
    in scope and absent from [after], [u] is a key of the output exactly
    when the facet [Deleted] is set; its triple is then [[0, 0, -btot]],
    provided no other key of [before] is substituted to [u]. *)
Theorem GetResultsDiff_deleted (ob oa : list (string * list Z))
    (before after : gmap string (list Z)) (filter : DiffFilterParam)
    (paths : PathSet) (renames : RenameMap)
    (s : string) (bp btot : Z) (rest : list Z) :
  range_of before ob → range_of after oa →
  no_short before → no_short after →
  before !! s = Some (bp :: btot :: rest) →
  valid_counts bp btot →
  anyPathMatches paths (renamed_test renames s) = true →
  after !! renamed_test renames s = None →
  ∃ d, GetResultsDiff ob oa before after filter paths renames = Some d
       ∧ (is_Some (d !! renamed_test renames s) ↔ Deleted filter = true)
       ∧ ((∀ s' v', before !! s' = Some v' →
                    renamed_test renames s' = renamed_test renames s → s' = s) →
          ∀ v, d !! renamed_test renames s = Some v → v = [0; 0; - btot]).
Proof.
  intros Hob Hoa Hnb Hna Hbefore [Hcounts Hmax] Hscope Hafter.
  destruct (GetResultsDiff_total before after filter paths renames ob oa
              Hob Hoa Hnb Hna) as [d Hrun].
  exists d. split; [done |].
  unfold GetResultsDiff in Hrun.
  destruct (first_pass ob after filter paths renames ∅) as [d1|] eqn:Hfirst;
    [| done].
  simpl in Hrun.
  rewrite (added_pass_lookup_substituted oa before filter paths renames s d1 d
             (mk_is_Some _ _ Hbefore) Hrun).
  clear Hrun. unfold first_pass in Hfirst.
  pose proof (λ d0, first_pass_body_deleted after filter paths renames s bp btot
                      rest d0 Hscope Hafter) as Hbody.
  destruct (Deleted filter) eqn:Hdeleted; simpl in Hfirst.
  - split.
    + split; [done | intros _].
      apply (first_pass_emitted ob after filter paths renames
               (s, bp :: btot :: rest) _ [0; 0; GoInt.neg btot] ∅ d1);
        [| | done].
      * by apply (range_of_elem before ob s _ Hob).
      * intros d0. apply Hbody.
    + intros Huniq.
      destruct (first_pass_lookup_unique ob before after filter paths renames
                  s (bp :: btot :: rest)
                  (Emit (renamed_test renames s) [0; 0; GoInt.neg btot])
                  ∅ d1 Hob Hbefore Huniq)
        as (d2 & d3 & _ & Hemit & Hd1); [| done |].
      * intros d0. apply Hbody.
      * simpl in Hemit. injection Hemit as <-.
        rewrite Hd1, lookup_insert_eq, neg_valid by lia.
        by intros v [= <-].
  - assert (d1 !! renamed_test renames s = None) as Hd1.
    { destruct (Changed filter); [| injection Hfirst as <-; apply lookup_empty].
      apply (range_loop_invariant (first_pass_body after filter paths renames)
               (λ d0, d0 !! renamed_test renames s = None) ob ∅ d1);
        [| apply lookup_empty | done].
      intros e d2 d3 Hin HP Hstep.
      destruct (first_pass_body_effect after filter paths renames e)
        as (r & Hr & Hk).
      rewrite Hr in Hstep.
      destruct r as [| |k v]; simpl in Hstep;
        [done | by injection Hstep as <- |].
      injection Hstep as <-.
      destruct (Hk k v eq_refl) as (_ & _ & Hdel).
      destruct (decide (k = renamed_test renames s)) as [->|Hne].
      - specialize (Hdel Hafter). congruence.
      - by rewrite lookup_insert_ne. }
    rewrite Hd1. split; [| done].
    split; [by intros [v Hv] | done].
Qed.

(** ** The rename example (C5) *)

(** The added pass leaves a rename target alone. *)
Lemma added_pass_lookup_target (oa : list (string * list Z))
    (before : gmap string (list Z)) (filter : DiffFilterParam)
    (paths : PathSet) (renames : RenameMap) (t : string)
    (d d' : gmap string (list Z)) :
  rename_target renames t →
  added_pass oa before filter paths renames d = Some d' →
  d' !! t = d !! t.
Proof.
  intros Htarget Hrun.
  by destruct (added_pass_lookup before filter paths renames oa t d d' Hrun)
    as [Hsame | (_ & _ & _ & Hnot & _)].
Qed.

(** C5: with [before = {"/a": [1, 2]}], [after = {"/b": [2, 2]}],
    [renames = {"/a": "/b"}] and only the facet [Changed] set,
    [GetResultsDiff] returns exactly [{"/b": [1, 0, 0]}] (and the same with
    [Added] set as well); and under every filter, hence every filter with
    [Added] set, the added pass skips an entry whose path is the target of
    a rename entry and leaves the binding of that path as it was. *)
Theorem GetResultsDiff_rename_example :
  (∀ (ob oa : list (string * list Z)),
     range_of {[ "/a" := [1; 2] ]} ob → range_of {[ "/b" := [2; 2] ]} oa →
     GetResultsDiff ob oa {[ "/a" := [1; 2] ]} {[ "/b" := [2; 2] ]}
       changed_only None (Some {[ "/a" := "/b" ]})
     = Some {[ "/b" := [1; 0; 0] ]}
     ∧ GetResultsDiff ob oa {[ "/a" := [1; 2] ]} {[ "/b" := [2; 2] ]}
         changed_added None (Some {[ "/a" := "/b" ]})
       = Some {[ "/b" := [1; 0; 0] ]})
  ∧ (∀ (oa : list (string * list Z)) (before : gmap string (list Z))
       (filter : DiffFilterParam) (paths : PathSet) (renames : RenameMap)
       (t : string),
       rename_target renames t →
       (∀ diff resultsAfter,
          added_pass_body before paths renames diff (t, resultsAfter) = Some diff)
       ∧ (∀ diff diff',
            added_pass oa before filter paths renames diff = Some diff' →
            diff' !! t = diff !! t)).
Proof.
  split.
  - intros ob oa ->%range_of_singleton ->%range_of_singleton.
    split; reflexivity.
  - intros oa before filter paths renames t Htarget. split.
    + intros diff resultsAfter. unfold added_pass_body. simpl.
      apply renamed_true in Htarget. by rewrite Htarget.
    + intros diff diff'. by apply added_pass_lookup_target.
Qed.

(** ** Array bounds (C10) *)

(** C10: when every count array of both summaries has at least two
    elements, [GetResultsDiff] returns in every enumeration order: no
    access to elements 0 and 1 is out of bounds.  The condition cannot be
    dropped, the accesses being unchecked: a one-element array in [before]
    (deleted path), an empty array in [before] (changed path) and a
    one-element array in [after] (added path) each make it panic. *)
Theorem GetResultsDiff_in_bounds :
  (∀ (ob oa : list (string * list Z))
     (before after : gmap string (list Z)) (filter : DiffFilterParam)
     (paths : PathSet) (renames : RenameMap),
     range_of before ob → range_of after oa →
     no_short before → no_short after →
     is_Some (GetResultsDiff ob oa before after filter paths renames))
  ∧ GetResultsDiff [("/a", [1])] [] {[ "/a" := [1] ]} ∅ deleted_only None None
    = None
  ∧ GetResultsDiff [("/a", [])] [("/a", [1; 2])]
      {[ "/a" := [] ]} {[ "/a" := [1; 2] ]} changed_only None None
    = None
  ∧ GetResultsDiff [] [("/a", [1])] ∅ {[ "/a" := [1] ]} added_only None None
    = None.
Proof.
  split; [| repeat split; reflexivity].
  intros ob oa before after filter paths renames.
  apply GetResultsDiff_total.
Qed.

(** ** Enumeration order (C3) *)

(** X4: when no two keys of [before] are substituted to the same path, the
    result of [GetResultsDiff] is the same in every enumeration order. *)
Lemma GetResultsDiff_order_independent (ob1 ob2 oa1 oa2 : list (string * list Z))
    (before after : gmap string (list Z)) (filter : DiffFilterParam)
    (paths : PathSet) (renames : RenameMap) :
  range_of before ob1 → range_of before ob2 →
  range_of after oa1 → range_of after oa2 →
  (∀ s s', is_Some (before !! s) → is_Some (before !! s') →
           renamed_test renames s = renamed_test renames s' → s = s') →
  GetResultsDiff ob1 oa1 before after filter paths renames
  = GetResultsDiff ob2 oa2 before after filter paths renames.
Proof.
  intros Hob1 Hob2 Hoa1 Hoa2 Hinj. unfold GetResultsDiff.
  assert (first_pass ob1 after filter paths renames ∅
          = first_pass ob2 after filter paths renames ∅) as ->.
  { unfold first_pass. destruct (_ || _); [| done].
    apply (range_loop_perm _ (λ e, renamed_test renames e.1)).
    - apply first_pass_body_keys.
    - apply NoDup_fmap_2_strong; [| by apply (range_of_NoDup before)].
      intros [s v] [s' v'] Hin Hin' Hkey. simpl in Hkey.
      apply (range_of_elem before ob1 s v Hob1) in Hin.
      apply (range_of_elem before ob1 s' v' Hob1) in Hin'.
      assert (s = s') as <- by (apply Hinj; [by eexists | by eexists | done]).
      congruence.
    - unfold range_of in Hob1, Hob2. by rewrite Hob1, Hob2. }
  destruct (first_pass ob2 after filter paths renames ∅) as [d1|]; [| done].
  simpl. unfold added_pass. destruct (Added filter); [| done].
  apply (range_loop_perm _ fst).
  - apply added_pass_body_keys.
  - by apply (range_of_NoDup_keys after).
  - unfold range_of in Hoa1, Hoa2. by rewrite Hoa1, Hoa2.
Qed.

(** C3 at a rename entry whose target is itself a key of [before]: the
    two enumeration orders of [before] give two different outputs, the
    triple of "/b" being the one written last. *)
Theorem GetResultsDiff_order_dependent :
  range_of collision_before [("/a", [1; 2]); ("/b", [0; 2])]
  ∧ range_of collision_before [("/b", [0; 2]); ("/a", [1; 2])]
  ∧ range_of collision_after [("/b", [2; 2])]
  ∧ GetResultsDiff [("/a", [1; 2]); ("/b", [0; 2])] [("/b", [2; 2])]
      collision_before collision_after changed_only None collision_renames
    = Some {[ "/b" := [2; 0; 0] ]}
  ∧ GetResultsDiff [("/b", [0; 2]); ("/a", [1; 2])] [("/b", [2; 2])]
      collision_before collision_after changed_only None collision_renames
    = Some {[ "/b" := [1; 0; 0] ]}
  ∧ GetResultsDiff [("/a", [1; 2]); ("/b", [0; 2])] [("/b", [2; 2])]
      collision_before collision_after changed_only None collision_renames
    ≠ GetResultsDiff [("/b", [0; 2]); ("/a", [1; 2])] [("/b", [2; 2])]
        collision_before collision_after changed_only None collision_renames.
Proof.
  assert (range_of collision_before [("/a", [1; 2]); ("/b", [0; 2])]) as Hab.
  { unfold range_of, collision_before.
    rewrite map_to_list_insert by done. by rewrite map_to_list_singleton. }
  split; [done |]. split.
  { unfold range_of in *. rewrite <- Hab. apply perm_swap. }
  split.
  { unfold range_of, collision_after. by rewrite map_to_list_singleton. }
  assert (GetResultsDiff [("/a", [1; 2]); ("/b", [0; 2])] [("/b", [2; 2])]
            collision_before collision_after changed_only None collision_renames
          = Some {[ "/b" := [2; 0; 0] ]}) as Hfirst by (vm_compute; reflexivity).
  assert (GetResultsDiff [("/b", [0; 2]); ("/a", [1; 2])] [("/b", [2; 2])]
            collision_before collision_after changed_only None collision_renames
          = Some {[ "/b" := [1; 0; 0] ]}) as Hsecond by (vm_compute; reflexivity).
  split; [done |]. split; [done |].
  rewrite Hfirst, Hsecond. intros Heq.
  apply (f_equal (λ o : option (gmap string (list Z)), o ≫= (.!! "/b"))) in Heq.
  simpl in Heq. rewrite !lookup_singleton_eq in Heq. discriminate Heq.
Qed.

(** ** Fetch orchestration (C9) *)

Section OrchestrationLemmas.

Variable TestRun : Type.
Variable ResultsURL : TestRun → string.
Variable FullRevisionHash : TestRun → string.
Variable TrimSpace : string → string.
Variable client_Get : string → Response + error.
Variable format_int : Z → string.
Variable json_Unmarshal : string → gmap string (list Z) + error.
Variable IsFeatureEnabled : string → bool.
Variable GetSecret : string → string + error.
Variable CompareCommits :
forall (secret owner repo base head : string),
  option CommitsComparison * option error.

Local Abbreviation fetch :=
(FetchRunResultsJSON TestRun ResultsURL TrimSpace client_Get format_int
   json_Unmarshal).
Local Abbreviation diff_renames := (getDiffRenames GetSecret CompareCommits).
Local Abbreviation runs_diff :=
(GetRunsDiff TestRun ResultsURL FullRevisionHash TrimSpace client_Get
   format_int json_Unmarshal IsFeatureEnabled GetSecret CompareCommits).

(** [GetRunsDiff] returns an error exactly in two cases, with these
  texts. *)
Lemma GetRunsDiff_Failed (ob oa : list (string * list Z)) (before after : TestRun)
  (filter : DiffFilterParam) (paths : PathSet) (err : error) :
runs_diff ob oa before after filter paths = Failed err ↔
(∃ cause, fetch before = inr cause
          ∧ err = "Failed to fetch 'before' results: " +:+ cause)
∨ (∃ beforeJSON cause,
     fetch before = inl beforeJSON ∧ fetch after = inr cause
     ∧ err = "Failed to fetch 'after' results: " +:+ cause).
Proof using Type.
unfold GetRunsDiff.
destruct (fetch before) as [beforeJSON|cause1].
- destruct (fetch after) as [afterJSON|cause2].
  + split.
    * destruct (if IsFeatureEnabled "diffRenames" then _ else _) as [renames|];
        [| done].
      by destruct (GetResultsDiff _ _ _ _ _ _ _).
    * intros [(cause & Heq & _) | (b & cause & _ & Heq & _)]; done.
  + split.
    * intros [= <-]. right. by exists beforeJSON, cause2.
    * intros [(cause & Heq & _) | (b & cause & _ & Heq & ->)]; [done |].
      by injection Heq as ->.
- split.
  + intros [= <-]. left. by exists cause1.
  + intros [(cause & Heq & ->) | (b & cause & Heq & _)]; [| done].
    by injection Heq as ->.
Qed.

(** An error is returned if and only if one of the two fetches fails. *)
Lemma GetRunsDiff_error_iff (ob oa : list (string * list Z)) (before after : TestRun)
  (filter : DiffFilterParam) (paths : PathSet) :
(∃ err, runs_diff ob oa before after filter paths = Failed err) ↔
(∃ cause, fetch before = inr cause) ∨ (∃ cause, fetch after = inr cause).
Proof using Type.
split.
- intros [err Herr]. apply GetRunsDiff_Failed in Herr
    as [(cause & Hb & _) | (b & cause & _ & Ha & _)]; [left | right]; by eexists.
- intros Hfail. destruct (fetch before) as [beforeJSON|cause1] eqn:Hb.
  + destruct Hfail as [[cause Hc] | [cause Ha]]; [done |].
    eexists. apply GetRunsDiff_Failed. right. exists beforeJSON, cause.
    by rewrite Hb.
  + eexists. apply GetRunsDiff_Failed. left. exists cause1. by rewrite Hb.
Qed.

(** [getDiffRenames] never yields an error; where it does not panic, a
  failed secret lookup or comparison gives the nil map. *)
Lemma getDiffRenames_secret_failure (shaBefore shaAfter : string) (cause : error) :
GetSecret "github-api-token" = inr cause →
diff_renames shaBefore shaAfter = Some None.
Proof using Type.
intros Hsecret. unfold getDiffRenames. rewrite Hsecret.
by destruct (decide _).
Qed.

Lemma getDiffRenames_compare_failure (shaBefore shaAfter secret : string)
  (comparison : option CommitsComparison) (cause : error) :
GetSecret "github-api-token" = inl secret →
CompareCommits secret "web-platform-tests" "wpt" shaBefore shaAfter
= (comparison, Some cause) →
(7 ≤ String.length shaBefore)%nat → (7 ≤ String.length shaAfter)%nat →
diff_renames shaBefore shaAfter = Some None.
Proof using Type.
intros Hsecret Hcompare Hb Ha. unfold getDiffRenames.
destruct (decide _); [done |]. rewrite Hsecret, Hcompare.
unfold slice_to. rewrite !decide_True by done. by destruct comparison.
Qed.

(** The slice [shaBefore[:7]] in the error log of a failed comparison
  panics on a revision hash shorter than seven bytes. *)
Lemma getDiffRenames_compare_failure_short (shaBefore shaAfter secret : string)
  (comparison : option CommitsComparison) (cause : error) :
shaBefore ≠ shaAfter →
GetSecret "github-api-token" = inl secret →
CompareCommits secret "web-platform-tests" "wpt" shaBefore shaAfter
= (comparison, Some cause) →
(String.length shaBefore < 7)%nat →
diff_renames shaBefore shaAfter = None.
Proof using Type.
intros Hne Hsecret Hcompare Hb. unfold getDiffRenames.
rewrite decide_False by done. rewrite Hsecret, Hcompare.
unfold slice_to. rewrite (decide_False (P := (7 ≤ String.length shaBefore)%nat)) by lia.
by destruct comparison.
Qed.

(** With both fetches done and the rename resolution failed without a
  panic, [GetRunsDiff] carries the nil rename map and the rename-unaware
  diff. *)
Lemma GetRunsDiff_rename_failure (ob oa : list (string * list Z))
  (before after : TestRun) (filter : DiffFilterParam) (paths : PathSet)
  (beforeJSON afterJSON : gmap string (list Z)) :
fetch before = inl beforeJSON → fetch after = inl afterJSON →
diff_renames (FullRevisionHash before) (FullRevisionHash after) = Some None →
range_of beforeJSON ob → range_of afterJSON oa →
no_short beforeJSON → no_short afterJSON →
∃ differences,
  GetResultsDiff ob oa beforeJSON afterJSON filter paths None = Some differences
  ∧ runs_diff ob oa before after filter paths
    = Returned {| Before := before; BeforeSummary := beforeJSON;
                  After := after; AfterSummary := afterJSON;
                  Differences := differences; Renames := None |}.
Proof using Type.
intros Hb Ha Hren Hob Hoa Hnb Hna.
destruct (GetResultsDiff_total beforeJSON afterJSON filter paths None ob oa
            Hob Hoa Hnb Hna) as [differences Hdiff].
exists differences. split; [done |].
unfold GetRunsDiff. rewrite Hb, Ha, Hren.
destruct (IsFeatureEnabled "diffRenames"); by rewrite Hdiff.
Qed.

End OrchestrationLemmas.

(** C9 at a run whose full revision hash is shorter than seven bytes:
    both fetches succeed and the comparison of the revisions fails;
    instead of going on with a nil rename map, [GetRunsDiff] panics in
    [getDiffRenames].  With a forty-byte hash in its place the same
    failure gives the nil rename map and a returned diff. *)
Theorem GetRunsDiff_short_hash_panics :
  FetchRunResultsJSON example_run fst id example_Get (λ _, "") example_Unmarshal
    short_hash_before = inl ∅
  ∧ FetchRunResultsJSON example_run fst id example_Get (λ _, "") example_Unmarshal
      short_hash_after = inl ∅
  ∧ example_GetRunsDiff short_hash_before short_hash_after = Panicked
  ∧ example_GetRunsDiff
      ("https://storage/before.json", "fedcba9876543210fedcba9876543210fedcba98")
      short_hash_after
    = Returned {| Before := ("https://storage/before.json",
                             "fedcba9876543210fedcba9876543210fedcba98");
                  BeforeSummary := ∅;
                  After := short_hash_after;
                  AfterSummary := ∅;
                  Differences := ∅;
                  Renames := None |}.
Proof. repeat split; vm_compute; reflexivity. Qed.

(** ** Instances on concrete summaries *)

Lemma range_of_empty {V : Type} : range_of (∅ : gmap string V) [].
Proof. unfold range_of. by rewrite map_to_list_empty. Qed.

Lemma range_of_singleton_list {V : Type} (k : string) (v : V) :
  range_of {[k := v]} [(k, v)].
Proof. unfold range_of. by rewrite map_to_list_singleton. Qed.

Lemma no_short_empty : no_short ∅.
Proof. apply map_Forall_empty. Qed.

Lemma no_short_singleton (k : string) (v : list Z) :
  (2 ≤ length v)%nat → no_short {[k := v]}.
Proof. intros Hlen. by apply map_Forall_singleton. Qed.

Lemma rename_target_nil (t : string) : ¬ rename_target None t.
Proof. by intros (r & s & Heq & _). Qed.

Lemma no_rename_entry_nil (t : string) : no_rename_entry None t.
Proof. split; [done | apply rename_target_nil]. Qed.

Lemma GetResultsDiff_unchanged_witness :
  ∃ d, GetResultsDiff [("/a", [1; 2])] [("/a", [1; 2])]
         {[ "/a" := [1; 2] ]} {[ "/a" := [1; 2] ]} all_facets None None = Some d
       ∧ (is_Some (d !! "/a") ↔
          Unchanged all_facets = true
          ∧ (Deleted all_facets = true ∨ Changed all_facets = true))
       ∧ ∀ v, d !! "/a" = Some v → v = [0; 0; 0].
Proof.
  apply (GetResultsDiff_unchanged [("/a", [1; 2])] [("/a", [1; 2])]
           {[ "/a" := [1; 2] ]} {[ "/a" := [1; 2] ]} all_facets None None
           "/a" 1 2 [] []).
  - apply range_of_singleton_list.
  - apply range_of_singleton_list.
  - apply no_short_singleton. simpl. lia.
  - apply no_short_singleton. simpl. lia.
  - reflexivity.
  - apply no_rename_entry_nil.
  - reflexivity.
  - reflexivity.
Defined.

Lemma GetResultsDiff_changed_witness :
  (∀ diff,
     first_pass_body {[ "/b" := [2; 2] ]} changed_only None
       (Some {[ "/a" := "/b" ]}) diff ("/a", [1; 2])
     = Some (<[ renamed_test (Some {[ "/a" := "/b" ]}) "/a" :=
                  [Z.max 0 (2 - 1); Z.max 0 ((2 - 2) - (2 - 1)); 2 - 2] ]> diff))
  ∧ ∃ d, GetResultsDiff [("/a", [1; 2])] [("/b", [2; 2])]
           {[ "/a" := [1; 2] ]} {[ "/b" := [2; 2] ]} changed_only None
           (Some {[ "/a" := "/b" ]}) = Some d
         ∧ d !! renamed_test (Some {[ "/a" := "/b" ]}) "/a"
           = Some [Z.max 0 (2 - 1); Z.max 0 ((2 - 2) - (2 - 1)); 2 - 2].
Proof.
  destruct (proj1 GetResultsDiff_changed [("/a", [1; 2])] [("/b", [2; 2])]
              {[ "/a" := [1; 2] ]} {[ "/b" := [2; 2] ]} changed_only None
              (Some {[ "/a" := "/b" ]}) "/a" 1 2 2 2 [] [])
    as [Hemit Hfinal].
  - reflexivity.
  - reflexivity.
  - reflexivity.
  - unfold valid_counts, GoInt.int_max. lia.
  - unfold valid_counts, GoInt.int_max. lia.
  - reflexivity.
  - left. lia.
  - split; [exact Hemit |]. apply Hfinal.
    + apply range_of_singleton_list.
    + apply range_of_singleton_list.
    + apply no_short_singleton. simpl. lia.
    + apply no_short_singleton. simpl. lia.
    + intros s' v' Hs _. by apply lookup_singleton_Some in Hs as [<- _].
Defined.

Lemma GetResultsDiff_rename_example_witness :
  GetResultsDiff [("/a", [1; 2])] [("/b", [2; 2])]
    {[ "/a" := [1; 2] ]} {[ "/b" := [2; 2] ]}
    changed_only None (Some {[ "/a" := "/b" ]})
  = Some {[ "/b" := [1; 0; 0] ]}
  ∧ GetResultsDiff [("/a", [1; 2])] [("/b", [2; 2])]
      {[ "/a" := [1; 2] ]} {[ "/b" := [2; 2] ]}
      changed_added None (Some {[ "/a" := "/b" ]})
    = Some {[ "/b" := [1; 0; 0] ]}.
Proof.
  apply (proj1 GetResultsDiff_rename_example [("/a", [1; 2])] [("/b", [2; 2])]).
  - apply range_of_singleton_list.
  - apply range_of_singleton_list.
Defined.

Lemma GetResultsDiff_added_witness :
  ∃ d, GetResultsDiff [("/old", [1; 1])] [("/new", [1; 3])]
         {[ "/old" := [1; 1] ]} {[ "/new" := [1; 3] ]} added_only None None = Some d
       ∧ (is_Some (d !! "/new") ↔ Added added_only = true)
       ∧ ∀ v, d !! "/new" = Some v → v = [1; 3 - 1; 3].
Proof.
  apply (GetResultsDiff_added [("/old", [1; 1])] [("/new", [1; 3])]
           {[ "/old" := [1; 1] ]} {[ "/new" := [1; 3] ]} added_only None None
           "/new" 1 3 []).
  - apply range_of_singleton_list.
  - apply range_of_singleton_list.
  - apply no_short_singleton. simpl. lia.
  - apply no_short_singleton. simpl. lia.
  - reflexivity.
  - reflexivity.
  - reflexivity.
  - unfold valid_counts, GoInt.int_max. lia.
  - apply rename_target_nil.
Defined.

Lemma GetResultsDiff_deleted_witness :
  ∃ d, GetResultsDiff [("/a", [1; 2])] []
         {[ "/a" := [1; 2] ]} ∅ deleted_only None (Some {[ "/a" := "/c" ]}) = Some d
       ∧ (is_Some (d !! renamed_test (Some {[ "/a" := "/c" ]}) "/a") ↔
          Deleted deleted_only = true)
       ∧ ∀ v, d !! renamed_test (Some {[ "/a" := "/c" ]}) "/a" = Some v →
              v = [0; 0; - 2].
Proof.
  destruct (GetResultsDiff_deleted [("/a", [1; 2])] []
              {[ "/a" := [1; 2] ]} ∅ deleted_only None (Some {[ "/a" := "/c" ]})
              "/a" 1 2 []) as (d & Hrun & Hiff & Htriple).
  - apply range_of_singleton_list.
  - apply range_of_empty.
  - apply no_short_singleton. simpl. lia.
  - apply no_short_empty.
  - reflexivity.
  - unfold valid_counts, GoInt.int_max. lia.
  - reflexivity.
  - reflexivity.
  - exists d. split; [exact Hrun |]. split; [exact Hiff |].
    apply Htriple.
    intros s' v' Hs _. by apply lookup_singleton_Some in Hs as [<- _].
Defined.

Lemma GetResultsDiff_out_of_scope_witness :
  ({[ "/css/a.html" := [1; 0; 0] ]} : gmap string (list Z)) !! "/html/foo.html"
  = None.
Proof.
  apply (proj2 (GetResultsDiff_out_of_scope
                  [("/html/foo.html", [1; 2]); ("/css/a.html", [1; 2])]
                  [("/html/foo.html", [2; 2]); ("/css/a.html", [2; 2])]
                  (<[ "/html/foo.html" := [1; 2] ]> {[ "/css/a.html" := [1; 2] ]})
                  (<[ "/html/foo.html" := [2; 2] ]> {[ "/css/a.html" := [2; 2] ]})
                  all_facets None {[ "/css/a.html" := [1; 0; 0] ]})).
  vm_compute. reflexivity.
Defined.

Lemma GetResultsDiff_in_bounds_witness :
  is_Some (GetResultsDiff [("/a", [1; 2])] [("/b", [2; 2])]
             {[ "/a" := [1; 2] ]} {[ "/b" := [2; 2] ]} all_facets None None).
Proof.
  apply (proj1 GetResultsDiff_in_bounds).
  - apply range_of_singleton_list.
  - apply range_of_singleton_list.
  - apply no_short_singleton. simpl. lia.
  - apply no_short_singleton. simpl. lia.
Defined.

(** * Further properties of the code *)

(** ** The values and keys of the output *)

(** The values an iteration of either loop can assign. *)
Lemma first_pass_body_values (after : gmap string (list Z))
    (filter : DiffFilterParam) (paths : PathSet) (renames : RenameMap)
    (entry : string * list Z) :
  ∃ r, (∀ d, first_pass_body after filter paths renames d entry = run_effect r d)
       ∧ ∀ k v, r = Emit k v →
           (∃ b1, entry.2 !! 1%nat = Some b1 ∧ after !! k = None
                  ∧ v = [0; 0; GoInt.neg b1])
           ∨ (∃ b0 b1 a0 a1 resultsAfter,
                entry.2 !! 0%nat = Some b0 ∧ entry.2 !! 1%nat = Some b1
                ∧ after !! k = Some resultsAfter
                ∧ resultsAfter !! 0%nat = Some a0
                ∧ resultsAfter !! 1%nat = Some a1
                ∧ v = [Z.max 0 (GoInt.sub a0 b0);
                       Z.max 0 (GoInt.sub (GoInt.sub a1 a0) (GoInt.sub b1 b0));
                       GoInt.sub a1 b1]).
Proof.
  unfold first_pass_body.
  destruct (anyPathMatches paths (renamed_test renames entry.1));
    simpl; [| by exists Skip].
  destruct (after !! renamed_test renames entry.1) as [resultsAfter|] eqn:Hafter.
  - destruct (negb (Changed filter) && negb (Unchanged filter));
      [by exists Skip |].
    destruct (entry.2 !! 0%nat) as [b0|] eqn:Hb0; simpl; [| by exists Panic].
    destruct (resultsAfter !! 0%nat) as [a0|] eqn:Ha0; simpl; [| by exists Panic].
    destruct (decide (GoInt.sub b0 a0 ≠ 0)); simpl.
    + destruct (negb (Changed filter)); simpl; [by exists Skip |].
      destruct (entry.2 !! 1%nat) as [b1|] eqn:Hb1; simpl; [| by exists Panic].
      destruct (resultsAfter !! 1%nat) as [a1|] eqn:Ha1; simpl; [| by exists Panic].
      eexists (Emit _ _). split; [done |]. intros k v [= <- <-].
      right. exists b0, b1, a0, a1, resultsAfter. by rewrite !max_zero.
    + destruct (entry.2 !! 1%nat) as [b1|] eqn:Hb1; simpl; [| by exists Panic].
      destruct (resultsAfter !! 1%nat) as [a1|] eqn:Ha1; simpl; [| by exists Panic].
      destruct (_ || _); [by exists Skip |].
      eexists (Emit _ _). split; [done |]. intros k v [= <- <-].
      right. exists b0, b1, a0, a1, resultsAfter. by rewrite !max_zero.
  - destruct (Deleted filter); simpl; [| by exists Skip].
    destruct (entry.2 !! 1%nat) as [b1|] eqn:Hb1; simpl; [| by exists Panic].
    eexists (Emit _ _). split; [done |]. intros k v [= <- <-].
    left. by exists b1.
Qed.

Lemma added_pass_body_values (before : gmap string (list Z))
    (paths : PathSet) (renames : RenameMap) (entry : string * list Z) :
  ∃ r, (∀ d, added_pass_body before paths renames d entry = run_effect r d)
       ∧ ∀ k v, r = Emit k v →
           ∃ a0 a1, entry.2 !! 0%nat = Some a0 ∧ entry.2 !! 1%nat = Some a1
                    ∧ v = [a0; GoInt.sub a1 a0; a1].
Proof.
  unfold added_pass_body.
  destruct (renamed renames entry.1); [by exists Skip |].
  destruct (anyPathMatches paths entry.1); simpl; [| by exists Skip].
  destruct (before !! entry.1); [by exists Skip |].
  destruct (entry.2 !! 0%nat) as [a0|] eqn:Ha0; simpl; [| by exists Panic].
  destruct (entry.2 !! 1%nat) as [a1|] eqn:Ha1; simpl; [| by exists Panic].
  eexists (Emit _ _). split; [done |]. intros k v [= <- <-].
  by exists a0, a1.
Qed.

(** A property of the assigned values is a property of every value of
    the map after the loop. *)
Lemma range_loop_values {E : Type}
    (body : gmap string (list Z) → E → option (gmap string (list Z)))
    (Q : list Z → Prop) (l : list E) (d d' : gmap string (list Z)) :
  (∀ e, e ∈ l → ∃ r, (∀ d1, body d1 e = run_effect r d1)
                      ∧ ∀ k v, r = Emit k v → Q v) →
  map_Forall (λ _, Q) d →
  range_loop body l d = Some d' →
  map_Forall (λ _, Q) d'.
Proof.
  intros Hbody. apply range_loop_invariant.
  intros e d1 d2 Hin HP Hstep.
  destruct (Hbody e Hin) as (r & Hr & Hv). rewrite Hr in Hstep.
  destruct r as [| |k v]; simpl in Hstep; [done | by injection Hstep as <- |].
  injection Hstep as <-. apply map_Forall_insert_2; [by apply (Hv k v) | done].
Qed.

Lemma GetResultsDiff_values (Q : list Z → Prop)
    (ob oa : list (string * list Z))
    (before after : gmap string (list Z)) (filter : DiffFilterParam)
    (paths : PathSet) (renames : RenameMap) (d : gmap string (list Z)) :
  (∀ e, e ∈ ob →
        ∃ r, (∀ d1, first_pass_body after filter paths renames d1 e = run_effect r d1)
             ∧ ∀ k v, r = Emit k v → Q v) →
  (∀ e, e ∈ oa →
        ∃ r, (∀ d1, added_pass_body before paths renames d1 e = run_effect r d1)
             ∧ ∀ k v, r = Emit k v → Q v) →
  GetResultsDiff ob oa before after filter paths renames = Some d →
  map_Forall (λ _, Q) d.
Proof.
  intros Hfirst Hadded Hrun. unfold GetResultsDiff in Hrun.
  destruct (first_pass ob after filter paths renames ∅) as [d1|] eqn:Hd1;
    [| done].
  simpl in Hrun.
  assert (map_Forall (λ _, Q) d1) as HQ1.
  { unfold first_pass in Hd1. destruct (_ || _).
    - by apply (range_loop_values _ Q ob ∅ d1 Hfirst (map_Forall_empty _)).
    - injection Hd1 as <-. apply map_Forall_empty. }
  unfold added_pass in Hrun. destruct (Added filter).
  - by apply (range_loop_values _ Q oa d1 d Hadded HQ1).
  - by injection Hrun as <-.
Qed.

(** X1: every value of the output of [GetResultsDiff] is an array of
    exactly three elements, whatever the summaries hold. *)
Theorem GetResultsDiff_triples (ob oa : list (string * list Z))
    (before after : gmap string (list Z)) (filter : DiffFilterParam)
    (paths : PathSet) (renames : RenameMap)
    (d : gmap string (list Z)) (t : string) (v : list Z) :
  GetResultsDiff ob oa before after filter paths renames = Some d →
  d !! t = Some v →
  length v = 3%nat.
Proof.
  intros Hrun Hv.
  apply (GetResultsDiff_values (λ v, length v = 3%nat) ob oa before after filter
           paths renames d) in Hrun; [by apply (Hrun t v) | |].
  - intros e _.
    destruct (first_pass_body_values after filter paths renames e) as (r & Hr & Hk).
    exists r. split; [done |]. intros k w Heq.
    destruct (Hk k w Heq) as [(b1 & _ & _ & ->) | (b0 & b1 & a0 & a1 & ra & H)];
      [done |].
    by destruct H as (_ & _ & _ & _ & _ & ->).
  - intros e _.
    destruct (added_pass_body_values before paths renames e) as (r & Hr & Hk).
    exists r. split; [done |]. intros k w Heq.
    by destruct (Hk k w Heq) as (a0 & a1 & _ & _ & ->).
Qed.

Lemma GetResultsDiff_triples_witness :
  length [1; 0; 0] = 3%nat.
Proof.
  apply (GetResultsDiff_triples [("/a", [1; 2])] [("/b", [2; 2])]
           {[ "/a" := [1; 2] ]} {[ "/b" := [2; 2] ]} changed_only None
           (Some {[ "/a" := "/b" ]}) {[ "/b" := [1; 0; 0] ]} "/b" [1; 0; 0]).
  - vm_compute. reflexivity.
  - vm_compute. reflexivity.
Defined.

(** X2: on summaries that satisfy the invariant [0 ≤ passed ≤ total],
    every triple [[improved, regressed, delta]] of the output has
    [improved ≥ 0], [regressed ≥ 0] and [delta ≤ improved + regressed]. *)
Theorem GetResultsDiff_consistent (ob oa : list (string * list Z))
    (before after : gmap string (list Z)) (filter : DiffFilterParam)
    (paths : PathSet) (renames : RenameMap)
    (d : gmap string (list Z)) (t : string) (v : list Z) :
  range_of before ob → range_of after oa →
  valid_summary before → valid_summary after →
  GetResultsDiff ob oa before after filter paths renames = Some d →
  d !! t = Some v →
  consistent_triple v.
Proof.
  intros Hob Hoa Hvb Hva Hrun Hv.
  apply (GetResultsDiff_values consistent_triple ob oa before after filter
           paths renames d) in Hrun; [by apply (Hrun t v) | |].
  - intros [s rb] Hin.
    apply (range_of_elem before ob s rb Hob) in Hin.
    apply Hvb in Hin as (bp & bt & rest & -> & [Hb Hbmax]).
    destruct (first_pass_body_values after filter paths renames
                (s, bp :: bt :: rest)) as (r & Hr & Hk).
    exists r. split; [done |]. intros k w Heq.
    destruct (Hk k w Heq) as [(b1 & Hb1 & _ & ->) | (b0 & b1 & a0 & a1 & ra & H)].
    + simpl in Hb1. injection Hb1 as <-.
      exists 0, 0, (GoInt.neg bt). rewrite neg_valid by lia.
      repeat split; lia.
    + destruct H as (Hb0 & Hb1 & Hra & Ha0 & Ha1 & ->).
      simpl in Hb0, Hb1. injection Hb0 as <-. injection Hb1 as <-.
      apply Hva in Hra as (ap & atot & rest' & -> & [Ha Hamax]).
      simpl in Ha0, Ha1. injection Ha0 as <-. injection Ha1 as <-.
      eexists _, _, _. split; [done |].
      rewrite (sub_valid ap bp), (sub_valid atot ap), (sub_valid bt bp),
        (sub_valid atot bt), (sub_valid (atot - ap) (bt - bp)) by lia.
      lia.
  - intros [s ra] Hin.
    apply (range_of_elem after oa s ra Hoa) in Hin.
    apply Hva in Hin as (ap & atot & rest & -> & [Ha Hamax]).
    destruct (added_pass_body_values before paths renames
                (s, ap :: atot :: rest)) as (r & Hr & Hk).
    exists r. split; [done |]. intros k w Heq.
    destruct (Hk k w Heq) as (a0 & a1 & Ha0 & Ha1 & ->).
    simpl in Ha0, Ha1. injection Ha0 as <-. injection Ha1 as <-.
    eexists _, _, _. split; [done |].
    rewrite (sub_valid atot ap) by lia. lia.
Qed.

Lemma valid_summary_singleton (k : string) (passed total : Z) :
  valid_counts passed total → valid_summary {[k := [passed; total]]}.
Proof.
  intros Hvalid. unfold valid_summary. rewrite map_Forall_singleton.
  exists passed, total, (@nil Z). by split.
Qed.

Lemma GetResultsDiff_consistent_witness :
  consistent_triple [1; 2; 3].
Proof.
  apply (GetResultsDiff_consistent [("/t", [1; 2])] [("/t", [2; 5])]
           {[ "/t" := [1; 2] ]} {[ "/t" := [2; 5] ]} changed_only None None
           {[ "/t" := [1; 2; 3] ]} "/t" [1; 2; 3]).
  - apply range_of_singleton_list.
  - apply range_of_singleton_list.
  - apply valid_summary_singleton. unfold valid_counts, GoInt.int_max. lia.
  - apply valid_summary_singleton. unfold valid_counts, GoInt.int_max. lia.
  - vm_compute. reflexivity.
  - vm_compute. reflexivity.
Defined.

(** X3: a key of the output is in scope and comes from the input: it is
    the substituted path of a key of [before] (and then [Deleted] or
    [Changed] is set), or a key of [after] that [before] does not have and
    that is no rename target (and then [Added] is set). *)
Theorem GetResultsDiff_key_origin (ob oa : list (string * list Z))
    (before after : gmap string (list Z)) (filter : DiffFilterParam)
    (paths : PathSet) (renames : RenameMap)
    (d : gmap string (list Z)) (t : string) :
  range_of before ob → range_of after oa →
  GetResultsDiff ob oa before after filter paths renames = Some d →
  is_Some (d !! t) →
  anyPathMatches paths t = true
  ∧ ((Deleted filter || Changed filter = true
      ∧ ∃ s, is_Some (before !! s) ∧ renamed_test renames s = t)
     ∨ (Added filter = true
        ∧ is_Some (after !! t) ∧ before !! t = None
        ∧ ¬ rename_target renames t)).
Proof.
  intros Hob Hoa Hrun [v Hv]. unfold GetResultsDiff in Hrun.
  destruct (first_pass ob after filter paths renames ∅) as [d1|] eqn:Hfirst;
    [| done].
  simpl in Hrun.
  destruct (added_pass_lookup before filter paths renames oa t d1 d Hrun)
    as [Hsame | (Hadded & Hscope & Hbefore & Htarget & w & Hin)].
  - destruct (first_pass_lookup after filter paths renames ob t ∅ d1 Hfirst)
      as [Hempty | (Hgate & Hscope & s & w & Hin & Hkey)].
    + rewrite Hsame, Hempty, lookup_empty in Hv. done.
    + split; [done |]. left. split; [done |]. exists s. split; [| done].
      exists w. by apply (range_of_elem before ob s w Hob).
  - split; [done |]. right. split; [done |].
    split; [| by split].
    exists w. by apply (range_of_elem after oa t w Hoa).
Qed.

Lemma GetResultsDiff_key_origin_witness :
  anyPathMatches None "/b" = true
  ∧ ((Deleted changed_only || Changed changed_only = true
      ∧ ∃ s, is_Some (({[ "/a" := [1; 2] ]} : gmap string (list Z)) !! s)
             ∧ renamed_test (Some {[ "/a" := "/b" ]}) s = "/b")
     ∨ (Added changed_only = true
        ∧ is_Some (({[ "/b" := [2; 2] ]} : gmap string (list Z)) !! "/b")
        ∧ ({[ "/a" := [1; 2] ]} : gmap string (list Z)) !! "/b" = None
        ∧ ¬ rename_target (Some {[ "/a" := "/b" ]}) "/b")).
Proof.
  apply (GetResultsDiff_key_origin [("/a", [1; 2])] [("/b", [2; 2])]
           {[ "/a" := [1; 2] ]} {[ "/b" := [2; 2] ]} changed_only None
           (Some {[ "/a" := "/b" ]}) {[ "/b" := [1; 0; 0] ]} "/b").
  - apply range_of_singleton_list.
  - apply range_of_singleton_list.
  - vm_compute. reflexivity.
  - exists [1; 0; 0]. vm_compute. reflexivity.
Defined.

(** ** Enumeration order and rename maps that do not apply *)

Lemma range_of_pair {V : Type} (k1 k2 : string) (v1 v2 : V) :
  k1 ≠ k2 →
  range_of (<[k1 := v1]> {[k2 := v2]}) [(k1, v1); (k2, v2)]
  ∧ range_of (<[k1 := v1]> {[k2 := v2]}) [(k2, v2); (k1, v1)].
Proof.
  intros Hne.
  assert (range_of (<[k1 := v1]> {[k2 := v2]}) [(k1, v1); (k2, v2)]) as H12.
  { unfold range_of. rewrite map_to_list_insert by by apply lookup_singleton_ne.
    by rewrite map_to_list_singleton. }
  split; [done |]. unfold range_of in *. rewrite <- H12. apply perm_swap.
Qed.

(** Without a rename map no two keys are substituted to the same path. *)
Lemma GetResultsDiff_order_independent_witness :
  GetResultsDiff [("/a", [1; 2]); ("/b", [0; 2])] [("/b", [2; 2])]
    collision_before collision_after all_facets None None
  = GetResultsDiff [("/b", [0; 2]); ("/a", [1; 2])] [("/b", [2; 2])]
      collision_before collision_after all_facets None None.
Proof.
  apply GetResultsDiff_order_independent.
  - by apply range_of_pair.
  - by apply range_of_pair.
  - apply range_of_singleton_list.
  - apply range_of_singleton_list.
  - intros s s' _ _ Heq. exact Heq.
Defined.

(** Loops whose bodies agree on the entries give the same result. *)
Lemma range_loop_ext {E S : Type} (body1 body2 : S → E → option S)
    (l : list E) (acc : S) :
  (∀ e acc', e ∈ l → body1 acc' e = body2 acc' e) →
  range_loop body1 l acc = range_loop body2 l acc.
Proof.
  revert acc. induction l as [|e l IH]; intros acc Hext; simpl; [done |].
  rewrite (Hext e acc) by left.
  destruct (body2 acc e) as [acc'|]; [| done].
  apply IH. intros e' acc'' Hin. apply Hext. by right.
Qed.

Lemma GetResultsDiff_renames_ext (ob oa : list (string * list Z))
    (before after : gmap string (list Z)) (filter : DiffFilterParam)
    (paths : PathSet) (renames renames' : RenameMap) :
  (∀ e, e ∈ ob → renamed_test renames e.1 = renamed_test renames' e.1) →
  (∀ e, e ∈ oa → renamed renames e.1 = renamed renames' e.1) →
  GetResultsDiff ob oa before after filter paths renames
  = GetResultsDiff ob oa before after filter paths renames'.
Proof.
  intros Hfirst Hadded. unfold GetResultsDiff.
  assert (first_pass ob after filter paths renames ∅
          = first_pass ob after filter paths renames' ∅) as ->.
  { unfold first_pass. destruct (_ || _); [| done].
    apply range_loop_ext. intros e d Hin.
    unfold first_pass_body. by rewrite (Hfirst e Hin). }
  destruct (first_pass ob after filter paths renames' ∅) as [d1|]; [| done].
  simpl. unfold added_pass. destruct (Added filter); [| done].
  apply range_loop_ext. intros e d Hin.
  unfold added_pass_body. by rewrite (Hadded e Hin).
Qed.

(** X5: a rename map none of whose sources is a key of [before] and none
    of whose targets is a key of [after] changes nothing: the result is
    the one of the nil map.  So an empty-but-present rename map and the nil
    map give the same result on all inputs. *)
Theorem GetResultsDiff_renames_not_applying :
  (∀ (ob oa : list (string * list Z))
     (before after : gmap string (list Z)) (filter : DiffFilterParam)
     (paths : PathSet) (r : gmap string string),
     range_of before ob → range_of after oa →
     (∀ s, is_Some (before !! s) → r !! s = None) →
     (∀ t, is_Some (after !! t) → ¬ rename_target (Some r) t) →
     GetResultsDiff ob oa before after filter paths (Some r)
     = GetResultsDiff ob oa before after filter paths None)
  ∧ (∀ (ob oa : list (string * list Z))
       (before after : gmap string (list Z)) (filter : DiffFilterParam)
       (paths : PathSet),
       GetResultsDiff ob oa before after filter paths (Some ∅)
       = GetResultsDiff ob oa before after filter paths None).
Proof.
  split.
  - intros ob oa before after filter paths r Hob Hoa Hsrc Htgt.
    apply GetResultsDiff_renames_ext.
    + intros [s v] Hin. simpl.
      apply (range_of_elem before ob s v Hob) in Hin.
      by rewrite (Hsrc s (mk_is_Some _ _ Hin)).
    + intros [t v] Hin. simpl.
      apply (range_of_elem after oa t v Hoa) in Hin.
      destruct (renamed_loop (map_to_list r) t) eqn:Hloop; [| done].
      apply renamed_loop_target in Hloop.
      by destruct (Htgt t (mk_is_Some _ _ Hin)).
  - intros ob oa before after filter paths.
    apply GetResultsDiff_renames_ext.
    + intros e _. simpl. by rewrite lookup_empty.
    + intros e _. simpl. by rewrite map_to_list_empty.
Qed.

Lemma GetResultsDiff_renames_not_applying_witness :
  GetResultsDiff [("/a", [1; 2])] [("/a", [2; 2])]
    {[ "/a" := [1; 2] ]} {[ "/a" := [2; 2] ]} all_facets None
    (Some {[ "/x" := "/y" ]})
  = GetResultsDiff [("/a", [1; 2])] [("/a", [2; 2])]
      {[ "/a" := [1; 2] ]} {[ "/a" := [2; 2] ]} all_facets None None.
Proof.
  apply (proj1 GetResultsDiff_renames_not_applying).
  - apply range_of_singleton_list.
  - apply range_of_singleton_list.
  - intros s [v Hs]. apply lookup_singleton_Some in Hs as [<- _].
    by apply lookup_singleton_ne.
  - intros t [v Ht] (r & s & Hr & Hs). apply lookup_singleton_Some in Ht as [<- _].
    injection Hr as <-. by apply lookup_singleton_Some in Hs as [_ Hs].
Defined.

(** ** A summary compared with itself *)

Lemma first_pass_body_out_of_scope (after : gmap string (list Z))
    (filter : DiffFilterParam) (paths : PathSet) (renames : RenameMap)
    (entry : string * list Z) (d : gmap string (list Z)) :
  anyPathMatches paths (renamed_test renames entry.1) = false →
  first_pass_body after filter paths renames d entry = run_effect Skip d.
Proof. intros Hscope. unfold first_pass_body. by rewrite Hscope. Qed.

(** X6: the diff of a summary with itself, without a rename map, binds
    exactly the keys of the summary that are in scope, each to
    [[0, 0, 0]], when [Unchanged] is set together with [Deleted] or
    [Changed]; otherwise it is empty. *)
Theorem GetResultsDiff_self (ob oa : list (string * list Z))
    (m : gmap string (list Z)) (filter : DiffFilterParam) (paths : PathSet) :
  range_of m ob → range_of m oa → no_short m →
  ∃ d, GetResultsDiff ob oa m m filter paths None = Some d
       ∧ ∀ t, d !! t
              = if Unchanged filter && (Deleted filter || Changed filter)
                   && anyPathMatches paths t
                then (λ _, [0; 0; 0]) <$> m !! t
                else None.
Proof.
  intros Hob Hoa Hm.
  destruct (GetResultsDiff_total m m filter paths None ob oa Hob Hoa Hm Hm)
    as [d Hrun].
  exists d. split; [done |]. intros t.
  unfold GetResultsDiff in Hrun.
  destruct (first_pass ob m filter paths None ∅) as [d1|] eqn:Hfirst; [| done].
  simpl in Hrun.
  assert (d !! t = d1 !! t) as ->.
  { destruct (added_pass_lookup m filter paths None oa t d1 d Hrun)
      as [Hsame | (_ & _ & Hnone & _ & v & Hin)]; [done |].
    apply (range_of_elem m oa t v Hoa) in Hin. congruence. }
  clear Hrun. unfold first_pass in Hfirst.
  destruct (Deleted filter || Changed filter) eqn:Hgate.
  - destruct (m !! t) as [rb|] eqn:Ht.
    + pose proof (Hm t rb Ht) as Hlen. simpl in Hlen.
      apply lookup_two in Hlen as (p & tot & rest & ->).
      destruct (first_pass_lookup_unique ob m m filter paths None
                  t (p :: tot :: rest)
                  (if anyPathMatches paths t
                   then (if Unchanged filter then Emit t [0; 0; 0] else Skip)
                   else Skip)
                  ∅ d1 Hob Ht)
        as (d2 & d3 & Hd2 & Hemit & Hd1); [| | done |].
      * by intros s' v' _ Hkey.
      * intros d0. destruct (anyPathMatches paths t) eqn:Hscope.
        -- by apply (first_pass_body_unchanged m filter paths None t p tot
                       rest rest d0).
        -- by apply first_pass_body_out_of_scope.
      * simpl in Hd1, Hd2. rewrite Hd1.
        destruct (anyPathMatches paths t), (Unchanged filter);
          simpl in *; injection Hemit as <-;
          rewrite ?lookup_insert_eq, ?Hd2, ?lookup_empty; done.
    + destruct (first_pass_lookup m filter paths None ob t ∅ d1)
        as [Hsame | (_ & _ & s & v & Hin & Hkey)].
      * unfold first_pass. by rewrite Hgate.
      * rewrite Hsame, lookup_empty. by destruct (_ && _).
      * simpl in Hkey. subst s.
        apply (range_of_elem m ob t v Hob) in Hin. congruence.
  - injection Hfirst as <-. rewrite lookup_empty, andb_false_r. done.
Qed.

Lemma GetResultsDiff_self_witness :
  ∃ d, GetResultsDiff [("/a", [1; 2])] [("/a", [1; 2])]
         {[ "/a" := [1; 2] ]} {[ "/a" := [1; 2] ]} all_facets
         (Some {[ "/a" ]}) None = Some d
       ∧ ∀ t, d !! t
              = if Unchanged all_facets && (Deleted all_facets || Changed all_facets)
                   && anyPathMatches (Some {[ "/a" ]}) t
                then (λ _, [0; 0; 0]) <$>
                       ({[ "/a" := [1; 2] ]} : gmap string (list Z)) !! t
                else None.
Proof.
  apply GetResultsDiff_self.
  - apply range_of_singleton_list.
  - apply range_of_singleton_list.
  - apply no_short_singleton. simpl. lia.
Defined.

(** ** Deleted one way, added the other way *)

(** The output for the filter with only [Deleted] set, without a rename
    map. *)
Lemma GetResultsDiff_deleted_only (oa ob : list (string * list Z))
    (a b : gmap string (list Z)) (paths : PathSet) (d : gmap string (list Z))
    (t : string) :
  range_of a oa → no_short a →
  GetResultsDiff oa ob a b deleted_only paths None = Some d →
  d !! t
  = match a !! t with
    | Some results =>
        if anyPathMatches paths t
        then match b !! t with
             | None => (λ total, [0; 0; GoInt.neg total]) <$> results !! 1%nat
             | Some _ => None
             end
        else None
    | None => None
    end.
Proof.
  intros Hoa Ha Hrun. unfold GetResultsDiff, first_pass, added_pass in Hrun.
  simpl in Hrun.
  destruct (range_loop _ oa ∅) as [d1|] eqn:Hfirst; [| done].
  simpl in Hrun. injection Hrun as <-.
  destruct (a !! t) as [results|] eqn:Ht.
  - pose proof (Ha t results Ht) as Hlen. simpl in Hlen.
    apply lookup_two in Hlen as (p & tot & rest & ->).
    destruct (first_pass_lookup_unique oa a b deleted_only paths None
                t (p :: tot :: rest)
                (if anyPathMatches paths t
                 then match b !! t with
                      | None => Emit t [0; 0; GoInt.neg tot]
                      | Some _ => Skip
                      end
                 else Skip)
                ∅ d1 Hoa Ht)
      as (d2 & d3 & Hd2 & Hemit & Hd1); [| | done |].
    + by intros s' v' _ Hkey.
    + intros d0. unfold first_pass_body. simpl.
      destruct (anyPathMatches paths t); [| done]. simpl.
      by destruct (b !! t).
    + simpl in Hd1, Hd2. rewrite Hd1.
      destruct (anyPathMatches paths t); [destruct (b !! t) |];
        simpl in *; injection Hemit as <-;
        rewrite ?lookup_insert_eq, ?Hd2, ?lookup_empty; done.
  - rewrite (range_loop_lookup_other
               (first_pass_body b deleted_only paths None) (λ e, e.1)
               (first_pass_body_keys b deleted_only paths None) oa t ∅ d1);
      [apply lookup_empty | | done].
    intros [s v] Hin Hkey. simpl in Hkey. subst s.
    apply (range_of_elem a oa t v Hoa) in Hin. congruence.
Qed.

(** The output for the filter with only [Added] set, without a rename
    map. *)
Lemma GetResultsDiff_added_only (ob oa : list (string * list Z))
    (b a : gmap string (list Z)) (paths : PathSet) (d : gmap string (list Z))
    (t : string) :
  range_of a oa → no_short a →
  GetResultsDiff ob oa b a added_only paths None = Some d →
  d !! t
  = match a !! t with
    | Some results =>
        if anyPathMatches paths t
        then match b !! t with
             | None =>
                 passed ← results !! 0%nat;
                 total ← results !! 1%nat;
                 Some [passed; GoInt.sub total passed; total]
             | Some _ => None
             end
        else None
    | None => None
    end.
Proof.
  intros Hoa Ha Hrun. unfold GetResultsDiff, first_pass, added_pass in Hrun.
  simpl in Hrun.
  destruct (a !! t) as [results|] eqn:Ht.
  - pose proof (Ha t results Ht) as Hlen. simpl in Hlen.
    apply lookup_two in Hlen as (p & tot & rest & ->).
    destruct (range_loop_lookup_unique
                (added_pass_body b paths None) fst
                (added_pass_body_keys b paths None)
                oa (t, p :: tot :: rest) t ∅ d
                (if anyPathMatches paths t
                 then match b !! t with
                      | None => Emit t [p; GoInt.sub tot p; tot]
                      | Some _ => Skip
                      end
                 else Skip))
      as (d2 & d3 & Hd2 & Hemit & Hd); [| | | | done |].
    + by apply (range_of_NoDup a).
    + by apply (range_of_elem a oa t _ Hoa).
    + intros [s v] Hin Hkey. simpl in Hkey. subst s.
      apply (range_of_elem a oa t v Hoa) in Hin. congruence.
    + intros d0. unfold added_pass_body. simpl.
      destruct (anyPathMatches paths t); [| done]. simpl.
      by destruct (b !! t).
    + rewrite Hd.
      destruct (anyPathMatches paths t); [destruct (b !! t) |];
        simpl in *; injection Hemit as <-;
        rewrite ?lookup_insert_eq, ?Hd2, ?lookup_empty; done.
  - rewrite (range_loop_lookup_other
               (added_pass_body b paths None) fst
               (added_pass_body_keys b paths None) oa t ∅ d);
      [apply lookup_empty | | done].
    intros [s v] Hin Hkey. simpl in Hkey. subst s.
    apply (range_of_elem a oa t v Hoa) in Hin. congruence.
Qed.

(** X7: without a rename map, the paths reported as deleted from [a] to
    [b] are the paths reported as added from [b] to [a]; where the added
    triple is [[passed, failed, total]], the deleted triple is
    [[0, 0, -total]]. *)
Theorem GetResultsDiff_deleted_added_dual (oa oa' ob ob' : list (string * list Z))
    (a b : gmap string (list Z)) (paths : PathSet) :
  range_of a oa → range_of a oa' → range_of b ob → range_of b ob' →
  no_short a → no_short b →
  ∃ deleted added,
    GetResultsDiff oa ob a b deleted_only paths None = Some deleted
    ∧ GetResultsDiff ob' oa' b a added_only paths None = Some added
    ∧ ∀ t, (is_Some (deleted !! t) ↔ is_Some (added !! t))
           ∧ ∀ passed failed total,
               added !! t = Some [passed; failed; total] →
               deleted !! t = Some [0; 0; GoInt.neg total].
Proof.
  intros Hoa Hoa' Hob Hob' Ha Hb.
  destruct (GetResultsDiff_total a b deleted_only paths None oa ob
              Hoa Hob Ha Hb) as [deleted Hdel].
  destruct (GetResultsDiff_total b a added_only paths None ob' oa'
              Hob' Hoa' Hb Ha) as [added Hadd].
  exists deleted, added. split; [done |]. split; [done |]. intros t.
  rewrite (GetResultsDiff_deleted_only oa ob a b paths deleted t Hoa Ha Hdel).
  rewrite (GetResultsDiff_added_only ob' oa' b a paths added t Hoa' Ha Hadd).
  destruct (a !! t) as [results|] eqn:Ht; [| by split].
  pose proof (Ha t results Ht) as Hlen. simpl in Hlen.
  apply lookup_two in Hlen as (p & tot & rest & ->). simpl.
  destruct (anyPathMatches paths t); [| by split].
  destruct (b !! t); [by split |].
  split; [split; intros _; by eexists |].
  by intros passed failed total [= _ _ <-].
Qed.

Lemma GetResultsDiff_deleted_added_dual_witness :
  ∃ deleted added,
    GetResultsDiff [("/a", [1; 2])] [("/b", [2; 2])]
      {[ "/a" := [1; 2] ]} {[ "/b" := [2; 2] ]} deleted_only None None
    = Some deleted
    ∧ GetResultsDiff [("/b", [2; 2])] [("/a", [1; 2])]
        {[ "/b" := [2; 2] ]} {[ "/a" := [1; 2] ]} added_only None None
      = Some added
    ∧ ∀ t, (is_Some (deleted !! t) ↔ is_Some (added !! t))
           ∧ ∀ passed failed total,
               added !! t = Some [passed; failed; total] →
               deleted !! t = Some [0; 0; GoInt.neg total].
Proof.
  apply GetResultsDiff_deleted_added_dual.
  - apply range_of_singleton_list.
  - apply range_of_singleton_list.
  - apply range_of_singleton_list.
  - apply range_of_singleton_list.
  - apply no_short_singleton. simpl. lia.
  - apply no_short_singleton. simpl. lia.
Defined.

(** ** More on scope *)

Lemma append_assoc (s1 s2 s3 : string) :
  (s1 +:+ s2) +:+ s3 = s1 +:+ (s2 +:+ s3).
Proof.
  induction s1 as [|c s1 IH]; [reflexivity |].
  rewrite !append_cons. by rewrite IH.
Qed.

Lemma starts_with_append (s p suffix : string) :
  starts_with s p → starts_with (s +:+ suffix) p.
Proof.
  intros [rest ->]. exists (rest +:+ suffix). apply append_assoc.
Qed.

(** X8: scope is closed under extension of the path: when a path is in
    scope, so is every path that it is a prefix of (everything below a
    directory in scope is in scope). *)
Theorem anyPathMatches_extension (paths : PathSet) (testPath suffix : string) :
  anyPathMatches paths testPath = true →
  anyPathMatches paths (testPath +:+ suffix) = true.
Proof.
  destruct paths as [set|]; [| done].
  rewrite !anyPathMatches_Some. intros (path & Hin & Hpre).
  exists path. split; [done |]. by apply starts_with_append.
Qed.

Lemma anyPathMatches_extension_witness :
  anyPathMatches (Some {[ "/css/" ]}) ("/css/" +:+ "a.html") = true.
Proof.
  apply anyPathMatches_extension. vm_compute. reflexivity.
Defined.

(** X9: enlarging the path filter set keeps every path that was in scope
    in scope; a set that holds the empty string puts every path in scope;
    and every path listed in the set is itself in scope. *)
Theorem anyPathMatches_set (set : gset string) (testPath : string) :
  (∀ set' : gset string,
     set ⊆ set' →
     anyPathMatches (Some set) testPath = true →
     anyPathMatches (Some set') testPath = true)
  ∧ ("" ∈ set → anyPathMatches (Some set) testPath = true)
  ∧ (testPath ∈ set → anyPathMatches (Some set) testPath = true).
Proof.
  split; [| split].
  - intros set' Hsub. rewrite !anyPathMatches_Some.
    intros (path & Hin & Hpre). exists path. split; [by apply Hsub | done].
  - intros Hin. apply anyPathMatches_Some. exists "". split; [done |].
    by exists testPath.
  - intros Hin. apply anyPathMatches_Some. exists testPath. split; [done |].
    exists "". clear Hin. induction testPath as [|c s IH]; [done |].
    rewrite append_cons. by rewrite <- IH.
Qed.

Lemma anyPathMatches_set_witness :
  anyPathMatches (Some {[ ""; "/css/" ]}) "/html/foo.html" = true.
Proof.
  apply (proj1 (proj2 (anyPathMatches_set {[ ""; "/css/" ]} "/html/foo.html"))).
  apply elem_of_union_l. by apply elem_of_singleton.
Defined.

(** ** The two passes write different keys *)

(** The added pass never assigns a key that the first pass has bound. *)
Lemma added_pass_keeps_bound (ob oa : list (string * list Z))
    (before after : gmap string (list Z)) (filter filter' : DiffFilterParam)
    (paths : PathSet) (renames : RenameMap)
    (d1 d : gmap string (list Z)) (t : string) :
  range_of before ob →
  first_pass ob after filter paths renames ∅ = Some d1 →
  added_pass oa before filter' paths renames d1 = Some d →
  is_Some (d1 !! t) →
  d !! t = d1 !! t.
Proof.
  intros Hob Hfirst Hadded [v Hv].
  destruct (first_pass_lookup after filter paths renames ob t ∅ d1 Hfirst)
    as [Hempty | (_ & _ & s & w & Hin & <-)].
  - rewrite Hempty, lookup_empty in Hv. done.
  - apply (range_of_elem before ob s w Hob) in Hin.
    apply (added_pass_lookup_substituted oa before filter' paths renames s d1 d);
      [by eexists | done].
Qed.

(** X10: setting the facet [Added] only adds bindings: the first loop and
    the added loop never assign the same key, so every binding of the
    output without [Added] is a binding of the output with [Added], the
    other facets being the same. *)
Theorem GetResultsDiff_Added_only_adds (ob oa : list (string * list Z))
    (before after : gmap string (list Z)) (deleted changed unchanged : bool)
    (paths : PathSet) (renames : RenameMap)
    (d0 d : gmap string (list Z)) (t : string) (v : list Z) :
  range_of before ob →
  GetResultsDiff ob oa before after
    {| Added := false; Deleted := deleted; Changed := changed;
       Unchanged := unchanged |} paths renames = Some d0 →
  GetResultsDiff ob oa before after
    {| Added := true; Deleted := deleted; Changed := changed;
       Unchanged := unchanged |} paths renames = Some d →
  d0 !! t = Some v →
  d !! t = Some v.
Proof.
  intros Hob Hrun0 Hrun Hv. unfold GetResultsDiff in Hrun0, Hrun.
  assert (first_pass ob after
            {| Added := true; Deleted := deleted; Changed := changed;
               Unchanged := unchanged |} paths renames ∅
          = first_pass ob after
              {| Added := false; Deleted := deleted; Changed := changed;
                 Unchanged := unchanged |} paths renames ∅) as Hsame by done.
  rewrite Hsame in Hrun.
  destruct (first_pass ob after _ paths renames ∅) as [d1|] eqn:Hfirst; [| done].
  simpl in Hrun0, Hrun. unfold added_pass in Hrun0. simpl in Hrun0.
  injection Hrun0 as <-.
  rewrite (added_pass_keeps_bound ob oa before after _ _ paths renames d1 d t
             Hob Hfirst Hrun); [done | by eexists].
Qed.

Lemma GetResultsDiff_Added_only_adds_witness :
  (<[ "/n" := [1; 0; 1] ]> {[ "/b" := [1; 0; 0] ]} : gmap string (list Z)) !! "/b"
  = Some [1; 0; 0].
Proof.
  apply (GetResultsDiff_Added_only_adds
           [("/a", [1; 2])] [("/b", [2; 2]); ("/n", [1; 1])]
           {[ "/a" := [1; 2] ]} (<[ "/b" := [2; 2] ]> {[ "/n" := [1; 1] ]})
           false true false None (Some {[ "/a" := "/b" ]})
           {[ "/b" := [1; 0; 0] ]}).
  - apply range_of_singleton_list.
  - vm_compute. reflexivity.
  - vm_compute. reflexivity.
  - vm_compute. reflexivity.
Defined.

(** ** Fetching a summary *)

Section FetchLemmas.

Variable TestRun : Type.
Variable ResultsURL : TestRun → string.
Variable TrimSpace : string → string.
Variable client_Get : string → Response + error.
Variable format_int : Z → string.
Variable json_Unmarshal : string → gmap string (list Z) + error.

Local Abbreviation fetch :=
  (FetchRunResultsJSON TestRun ResultsURL TrimSpace client_Get format_int
     json_Unmarshal).

(** X11: [FetchRunResultsJSON] returns a summary only from a response
    with status 200 whose body was read and parsed, and then it is the
    parsed summary; a response with another status gives the status error
    whatever its body parses to, and a failed read of the body gives the
    read error whatever the status. *)
Theorem FetchRunResultsJSON_result (run : TestRun) :
  (∀ results,
     fetch run = inl results ↔
     ∃ resp body,
       client_Get (TrimSpace (ResultsURL run)) = inl resp
       ∧ Body resp = inl body
       ∧ StatusCode resp = 200
       ∧ json_Unmarshal body = inl results)
  ∧ (∀ resp body,
       client_Get (TrimSpace (ResultsURL run)) = inl resp →
       Body resp = inl body →
       StatusCode resp ≠ 200 →
       fetch run
       = inr (TrimSpace (ResultsURL run) +:+ " returned HTTP status "
              +:+ format_int (StatusCode resp) +:+ ":" +:+ newline +:+ body))
  ∧ (∀ resp err,
       client_Get (TrimSpace (ResultsURL run)) = inl resp →
       Body resp = inr err →
       fetch run = inr err).
Proof using Type.
  unfold FetchRunResultsJSON. split; [| split].
  - intros results. split.
    + destruct (client_Get _) as [resp|] eqn:Hget; [| done].
      destruct (Body resp) as [body|] eqn:Hbody; [| done].
      destruct (decide (StatusCode resp ≠ 200)) as [Hne|Heq]; [done |].
      destruct (json_Unmarshal body) as [r|] eqn:Hjson; [| done].
      intros [= <-]. exists resp, body.
      split; [done |]. split; [done |]. split; [| done].
      destruct (decide (StatusCode resp = 200)) as [H200|H200];
        [done | by destruct Heq].
    + intros (resp & body & -> & -> & Hstatus & ->).
      by rewrite decide_False by (intros Hne; by apply Hne).
  - intros resp body -> -> Hstatus. by rewrite decide_True.
  - by intros resp err -> ->.
Qed.

End FetchLemmas.

Lemma FetchRunResultsJSON_result_witness :
  FetchRunResultsJSON example_run fst id
    (λ _, inl {| StatusCode := 404; Body := inl "{}" |}) (λ _, "404")
    example_Unmarshal short_hash_before
  = inr (id (fst short_hash_before) +:+ " returned HTTP status "
         +:+ "404" +:+ ":" +:+ newline +:+ "{}").
Proof.
  apply (proj1 (proj2 (FetchRunResultsJSON_result example_run fst id
                         (λ _, inl {| StatusCode := 404; Body := inl "{}" |})
                         (λ _, "404") example_Unmarshal short_hash_before))
           {| StatusCode := 404; Body := inl "{}" |} "{}").
  - reflexivity.
  - reflexivity.
  - simpl. lia.
Defined.

(** ** The rename map of a comparison *)

(** [collect_renames] from a given map onwards. *)
Lemma collect_renames_fold (files : list CommitFile) (acc : gmap string string)
    (k v : string) :
  fold_left
    (λ renames file,
       if decide (GetStatus file = "renamed")
       then <["/" +:+ GetPreviousFilename file := "/" +:+ GetFilename file]> renames
       else renames)
    files acc !! k = Some v →
  acc !! k = Some v
  ∨ ∃ file, file ∈ files ∧ GetStatus file = "renamed"
            ∧ k = "/" +:+ GetPreviousFilename file
            ∧ v = "/" +:+ GetFilename file.
Proof.
  revert acc. induction files as [|f files IH]; intros acc; simpl; [by left |].
  intros Hk. apply IH in Hk as [Hk | (file & Hin & Hfile)].
  - destruct (decide (GetStatus f = "renamed")) as [Hst|Hst]; [| by left].
    destruct (decide ("/" +:+ GetPreviousFilename f = k)) as [<-|Hne].
    + rewrite lookup_insert_eq in Hk. injection Hk as <-.
      right. exists f. split; [left | done].
    + rewrite lookup_insert_ne in Hk by done. by left.
  - right. exists file. split; [by right | done].
Qed.

Lemma collect_renames_fold_keeps (files : list CommitFile)
    (acc : gmap string string) (k : string) :
  is_Some (acc !! k) →
  is_Some (fold_left
             (λ renames file,
                if decide (GetStatus file = "renamed")
                then <["/" +:+ GetPreviousFilename file
                       := "/" +:+ GetFilename file]> renames
                else renames)
             files acc !! k).
Proof.
  revert acc. induction files as [|f files IH]; intros acc Hk; simpl; [done |].
  apply IH. destruct (decide _); [| done].
  destruct (decide ("/" +:+ GetPreviousFilename f = k)) as [<-|Hne].
  - rewrite lookup_insert_eq. by eexists.
  - by rewrite lookup_insert_ne.
Qed.

(** X12: the rename map built from a comparison holds exactly the files
    whose status is "renamed": every entry maps "/" followed by the
    previous name of such a file to "/" followed by its name, every such
    file has its previous name as a key, and the map is empty when no file
    is renamed. *)
Theorem collect_renames_entries (files : list CommitFile) :
  (∀ k v, collect_renames files !! k = Some v →
          ∃ file, file ∈ files ∧ GetStatus file = "renamed"
                  ∧ k = "/" +:+ GetPreviousFilename file
                  ∧ v = "/" +:+ GetFilename file)
  ∧ (∀ file, file ∈ files → GetStatus file = "renamed" →
             is_Some (collect_renames files !! ("/" +:+ GetPreviousFilename file)))
  ∧ ((∀ file, file ∈ files → GetStatus file ≠ "renamed") →
     collect_renames files = ∅).
Proof.
  split; [| split].
  - intros k v Hk. unfold collect_renames in Hk.
    apply collect_renames_fold in Hk as [Hk | Hfile]; [| done].
    by rewrite lookup_empty in Hk.
  - unfold collect_renames. generalize (∅ : gmap string string).
    induction files as [|f files IH]; intros acc file Hin Hst.
    + by apply elem_of_nil in Hin.
    + simpl. apply elem_of_cons in Hin as [<- | Hin].
      * apply collect_renames_fold_keeps. rewrite decide_True by done.
        rewrite lookup_insert_eq. by eexists.
      * by apply IH.
  - intros Hnone. apply map_eq. intros k. rewrite lookup_empty.
    destruct (collect_renames files !! k) as [v|] eqn:Hk; [| done].
    unfold collect_renames in Hk.
    apply collect_renames_fold in Hk as [Hk | (file & Hin & Hst & _)].
    + by rewrite lookup_empty in Hk.
    + by destruct (Hnone file Hin).
Qed.

Lemma collect_renames_entries_witness :
  is_Some (collect_renames
             [ {| GetStatus := "modified"; GetFilename := "a/b.html";
                  GetPreviousFilename := "" |};
               {| GetStatus := "renamed"; GetFilename := "css/new.html";
                  GetPreviousFilename := "css/old.html" |} ]
           !! ("/" +:+ "css/old.html")).
Proof.
  apply (proj1 (proj2 (collect_renames_entries _))
           {| GetStatus := "renamed"; GetFilename := "css/new.html";
              GetPreviousFilename := "css/old.html" |}).
  - right. left.
  - reflexivity.
Defined.

(** ** Rename resolution *)

Section RenameLemmas.

Variable GetSecret : string → string + error.
Variable CompareCommits :
  forall (secret owner repo base head : string),
    option CommitsComparison * option error.

Local Abbreviation diff_renames := (getDiffRenames GetSecret CompareCommits).

(** X13: on two revision hashes of at least seven bytes, with a
    comparison service that never returns a nil comparison together with a
    nil error, [getDiffRenames] does not panic, and it returns a rename map
    (nil excluded) only when the hashes differ, the token was found and the
    comparison succeeded; the map is then the one built from the compared
    files.  On equal hashes it returns the nil map. *)
Theorem getDiffRenames_result (shaBefore shaAfter : string) :
  (7 ≤ String.length shaBefore)%nat → (7 ≤ String.length shaAfter)%nat →
  (∀ secret,
     CompareCommits secret "web-platform-tests" "wpt" shaBefore shaAfter
     ≠ (None, None)) →
  ∃ renames,
    diff_renames shaBefore shaAfter = Some renames
    ∧ (shaBefore = shaAfter → renames = None)
    ∧ ∀ r, renames = Some r ↔
           shaBefore ≠ shaAfter
           ∧ ∃ secret comparison,
               GetSecret "github-api-token" = inl secret
               ∧ CompareCommits secret "web-platform-tests" "wpt"
                   shaBefore shaAfter = (Some comparison, None)
               ∧ r = collect_renames (Files comparison).
Proof using Type.
  intros Hb Ha Hcontract. unfold getDiffRenames.
  destruct (decide (shaBefore = shaAfter)) as [Heq|Hne].
  { exists None. split; [done |]. split; [done |].
    intros r. split; [done | by intros [Hne _]]. }
  destruct (GetSecret "github-api-token") as [secret|cause] eqn:Hsecret.
  - specialize (Hcontract secret).
    destruct (CompareCommits secret "web-platform-tests" "wpt" shaBefore shaAfter)
      as [comparison err] eqn:Hcompare.
    unfold slice_to. rewrite !decide_True by done. simpl.
    destruct err as [cause|], comparison as [comparison|]; simpl.
    + exists None. split; [done |]. split; [done |].
      intros r. split; [done |].
      intros (_ & secret' & c & [= <-] & Hc & _).
      rewrite Hcompare in Hc. discriminate Hc.
    + exists None. split; [done |]. split; [done |].
      intros r. split; [done |].
      intros (_ & secret' & c & [= <-] & Hc & _).
      rewrite Hcompare in Hc. discriminate Hc.
    + exists (Some (collect_renames (Files comparison))).
      split; [by destruct (decide _) |]. split; [done |].
      intros r. split.
      * intros [= <-]. split; [done |]. by exists secret, comparison.
      * intros (_ & secret' & c & [= <-] & Hc & ->).
        rewrite Hcompare in Hc. by injection Hc as <-.
    + done.
  - exists None. split; [done |]. split; [done |].
    intros r. split; [done |].
    intros (_ & secret' & c & Hs & _). discriminate Hs.
Qed.

End RenameLemmas.

Lemma getDiffRenames_result_witness :
  ∃ renames,
    getDiffRenames (λ _, inl "token") example_Compare
      "fedcba9876543210fedcba9876543210fedcba98"
      "0123456789abcdef0123456789abcdef01234567" = Some renames
    ∧ ("fedcba9876543210fedcba9876543210fedcba98"
       = "0123456789abcdef0123456789abcdef01234567" → renames = None)
    ∧ ∀ r, renames = Some r ↔
           "fedcba9876543210fedcba9876543210fedcba98"
           ≠ "0123456789abcdef0123456789abcdef01234567"
           ∧ ∃ secret comparison,
               (inl "token" : string + error) = inl secret
               ∧ example_Compare secret "web-platform-tests" "wpt"
                   "fedcba9876543210fedcba9876543210fedcba98"
                   "0123456789abcdef0123456789abcdef01234567"
                 = (Some comparison, None)
               ∧ r = collect_renames (Files comparison).
Proof.
  apply (getDiffRenames_result (λ _, inl "token") example_Compare).
  - simpl. lia.
  - simpl. lia.
  - intros secret. discriminate.
Defined.

(** ** The helpers [abs] and [max] *)

(** X14: on a Go integer, [abs] is the absolute value except at the
    least integer, where the negation wraps around and [abs] returns the
    least integer itself, a negative number; [max] is the greater of its
    arguments. *)
Theorem abs_max_spec (x y : Z) :
  GoInt.in_range x →
  (x ≠ GoInt.int_min → Helpers.abs x = Z.abs x ∧ 0 ≤ Helpers.abs x)
  ∧ (x = GoInt.int_min → Helpers.abs x = GoInt.int_min ∧ Helpers.abs x < 0)
  ∧ Helpers.max x y = Z.max x y.
Proof.
  unfold GoInt.in_range, GoInt.int_min, GoInt.int_max, Helpers.abs, Helpers.max.
  intros Hx. split; [| split].
  - intros Hne. destruct (decide (x < 0)); [| lia].
    unfold GoInt.neg. rewrite wrap_in_range; [lia |].
    unfold GoInt.in_range, GoInt.int_min, GoInt.int_max. lia.
  - intros ->. vm_compute. split; reflexivity.
  - destruct (decide (x < y)); lia.
Qed.

Lemma abs_max_spec_witness :
  (- 5 ≠ GoInt.int_min → Helpers.abs (- 5) = Z.abs (- 5) ∧ 0 ≤ Helpers.abs (- 5))
  ∧ (- 5 = GoInt.int_min →
     Helpers.abs (- 5) = GoInt.int_min ∧ Helpers.abs (- 5) < 0)
  ∧ Helpers.max (- 5) 3 = Z.max (- 5) 3.
Proof.
  apply abs_max_spec.
  unfold GoInt.in_range, GoInt.int_min, GoInt.int_max. lia.
Defined.

(** ** Looking a run up *)

Section RunLookupLemmas.

Variable TestRun : Type.
Variable ResultsURL : TestRun → string.
Variable TrimSpace : string → string.
Variable client_Get : string → Response + error.
Variable format_int : Z → string.
Variable json_Unmarshal : string → gmap string (list Z) + error.
Variable ProductSpec : Type.
Variable base64_DecodeString : string → string + error.
Variable json_Unmarshal_run : string → TestRun + error.

Local Abbreviation fetch :=
  (FetchRunResultsJSON TestRun ResultsURL TrimSpace client_Get format_int
     json_Unmarshal).
Local Abbreviation for_spec :=
  (FetchRunResultsJSONForSpec TestRun ResultsURL TrimSpace client_Get
     format_int json_Unmarshal ProductSpec).
Local Abbreviation for_param :=
  (FetchRunResultsJSONForParam TestRun ResultsURL TrimSpace client_Get
     format_int json_Unmarshal ProductSpec).

(** X15: [FetchRunResultsJSONForParam] reads a parameter that decodes as
    base64 as an encoded run and never as a product spec, so its result
    does not depend on the spec parser or on the run lookup; for a
    parameter that parses as a product spec for which the lookup yields no
    run or several runs, the result is the nil summary with a nil error,
    not an error; and every summary it returns is that nil summary or was
    fetched for some run. *)
Theorem FetchRunResultsJSONForParam_result
    (LoadTestRuns : ProductSpec → list TestRun + error)
    (ParseProductSpec : string → ProductSpec + error) (param : string) :
  (∀ decoded LoadTestRuns' ParseProductSpec',
     base64_DecodeString param = inl decoded →
     for_param LoadTestRuns ParseProductSpec base64_DecodeString
       json_Unmarshal_run param
     = for_param LoadTestRuns' ParseProductSpec' base64_DecodeString
         json_Unmarshal_run param)
  ∧ (∀ cause spec runs,
       base64_DecodeString param = inr cause →
       ParseProductSpec param = inl spec →
       LoadTestRuns spec = inl runs → length runs ≠ 1%nat →
       for_param LoadTestRuns ParseProductSpec base64_DecodeString
         json_Unmarshal_run param = inl ∅)
  ∧ (∀ results,
       for_param LoadTestRuns ParseProductSpec base64_DecodeString
         json_Unmarshal_run param = inl results →
       results = ∅ ∨ ∃ run, fetch run = inl results).
Proof using Type.
  unfold FetchRunResultsJSONForParam, FetchRunResultsJSONForSpec, FetchRunForSpec.
  split; [| split].
  - by intros decoded L' P' ->.
  - intros cause spec runs -> -> -> Hlen.
    by destruct runs as [|run [|run' runs]].
  - intros results.
    destruct (base64_DecodeString param) as [decoded|cause].
    + destruct (json_Unmarshal_run decoded) as [run|err]; [| done].
      intros Hfetch. right. by exists run.
    + destruct (ParseProductSpec param) as [spec|err]; [| done].
      destruct (LoadTestRuns spec) as [runs|err]; [| done].
      destruct runs as [|run [|run' runs]].
      * intros [= <-]. by left.
      * intros Hfetch. right. by exists run.
      * intros [= <-]. by left.
Qed.

End RunLookupLemmas.

Lemma FetchRunResultsJSONForParam_result_witness :
  FetchRunResultsJSONForParam example_run fst id example_Get (λ _, "")
    example_Unmarshal string (λ _, inl []) (λ param, inl param)
    (λ _, inr "illegal base64 data") (λ _, inr "unexpected end of JSON input")
    "chrome"
  = inl ∅.
Proof.
  apply (proj1 (proj2 (FetchRunResultsJSONForParam_result example_run fst id
                         example_Get (λ _, "") example_Unmarshal string
                         (λ _, inr "illegal base64 data")
                         (λ _, inr "unexpected end of JSON input")
                         (λ _, inl []) (λ param, inl param) "chrome"))
           "illegal base64 data" "chrome" []).
  - reflexivity.
  - reflexivity.
  - reflexivity.
  - simpl. lia.
Defined.

(** ** What does not depend on the enumeration order *)

Section RangeLoopOrder.

Context {E : Type}.
Variable body : gmap string (list Z) → E → option (gmap string (list Z)).
Hypothesis body_effect : ∀ e, ∃ r, ∀ d, body d e = run_effect r d.



End RangeLoopOrder.




